(** * ufml-for-figjam: the flow-notation parser and the two-pass renderer

    The repository holds two versions of the plugin, each with its own
    [ScreenFlowParser] and [ScreenFlowRenderer]:
    - [src/code.ts] (module [CodeTs]): requirement annotations, the component
      prefixes T, E, B, A, the transitions [=> target] and
      [={condition}=> target];
    - the second source file (module [Part000]): section breaks [--], the
      component prefixes T, B, A, O and the labelled transitions
      [A name => target].

    Strings are JavaScript strings: sequences of UTF-16 code units, here
    [list N].  A run of the code either completes normally or is cut short,
    by a [TypeError] or by a promise of the host that is rejected; the
    embedding makes both outcomes explicit. *)

From stdpp Require Import base numbers option list strings gmap.

Local Open Scope N_scope.

(** ** JavaScript strings *)

Abbreviation jsstring := (list N).

(** A literal of the source, as code units; the literals are ASCII. *)
Definition lit (s : string) : jsstring :=
  Ascii.N_of_ascii <$> String.list_ascii_of_string s.

(** The line feed, ['\n']. *)
Definition LF : N := 10.

Module Str.

(** WhiteSpace and LineTerminator of ECMAScript: what [trim] strips. *)
Definition isWhiteSpace (c : N) : bool :=
  existsb (N.eqb c)
    [9; 10; 11; 12; 13; 32; 160; 5760; 8232; 8233; 8239; 8287; 12288; 65279]
  || ((8192 <=? c) && (c <=? 8202)).

(** LineTerminator: what [.] of a regular expression does not match. *)
Definition isLineTerminator (c : N) : bool :=
  existsb (N.eqb c) [10; 13; 8232; 8233].

Fixpoint trimStart (s : jsstring) : jsstring :=
  match s with
  | c :: r => if isWhiteSpace c then trimStart r else s
  | [] => []
  end.

Definition trimEnd (s : jsstring) : jsstring :=
  reverse (trimStart (reverse s)).

Definition trim (s : jsstring) : jsstring := trimEnd (trimStart s).

Fixpoint eqb (s t : jsstring) : bool :=
  match s, t with
  | [], [] => true
  | c :: s', d :: t' => (c =? d) && eqb s' t'
  | _, _ => false
  end.

Fixpoint startsWith (p s : jsstring) : bool :=
  match p, s with
  | [], _ => true
  | c :: p', d :: s' => (c =? d) && startsWith p' s'
  | _ :: _, [] => false
  end.

Definition endsWith (p s : jsstring) : bool :=
  startsWith (reverse p) (reverse s).

Fixpoint includes (p s : jsstring) : bool :=
  startsWith p s || match s with _ :: r => includes p r | [] => false end.

(** [s.slice(start, end)]: a negative index counts from the end, both
    indices are clamped to the string. *)
Definition relIndex (len i : Z) : Z :=
  if (i <? 0)%Z then Z.max (len + i) 0 else Z.min i len.

Definition slice (s : jsstring) (start : Z) (end_ : option Z) : jsstring :=
  let len := Z.of_nat (length s) in
  let from := relIndex len start in
  let to_ := match end_ with Some e => relIndex len e | None => len end in
  take (Z.to_nat (to_ - from)) (drop (Z.to_nat from) s).

Definition consHead (c : N) (parts : list jsstring) : list jsstring :=
  match parts with
  | h :: t => (c :: h) :: t
  | [] => [[c]]
  end.

(** [s.split(sep)] for a separator of one code unit (['\n'], [':']). *)
Fixpoint split (sep : N) (s : jsstring) : list jsstring :=
  match s with
  | [] => [[]]
  | c :: r => if c =? sep then [] :: split sep r else consHead c (split sep r)
  end.

(** [s.split(sep)] for a separator of two code units (['=>']): the
    occurrences are found left to right and do not overlap. *)
Fixpoint split2 (a b : N) (s : jsstring) : list jsstring :=
  match s with
  | [] => [[]]
  | c :: r =>
      match r with
      | d :: r' =>
          if (c =? a) && (d =? b) then [] :: split2 a b r'
          else consHead c (split2 a b r)
      | [] => [[c]]
      end
  end.

Fixpoint join (sep : jsstring) (parts : list jsstring) : jsstring :=
  match parts with
  | [] => []
  | [p] => p
  | p :: rest => p ++ sep ++ join sep rest
  end.

End Str.

(** ** Completions *)

Inductive Failure :=
| TypeError  (* a property read or a method call on [undefined] *)
| IllTyped   (* a field declared [string] would receive [undefined] *)
| Rejected.  (* a promise of the host was rejected *)

Inductive completion (A : Type) :=
| Normal (a : A)
| Throw (e : Failure).
Arguments Normal {A} a.
Arguments Throw {A} e.

Global Instance completion_ret : MRet completion := λ A a, Normal a.
Global Instance completion_bind : MBind completion := λ A B f m,
  match m with Normal a => f a | Throw e => Throw e end.

(** [o!.m(...)]: the method call on an optional value throws when the value
    is [undefined]. *)
Definition defined {A} (o : option A) : completion A :=
  match o with Some a => Normal a | None => Throw TypeError end.

(** A value stored where the interface declares a [string]. *)
Definition typed {A} (o : option A) : completion A :=
  match o with Some a => Normal a | None => Throw IllTyped end.

(** [for (const x of xs) body], with the state threaded through. *)
Fixpoint forOf {S A} (body : S → A → completion S) (xs : list A) (st : S)
  : completion S :=
  match xs with
  | [] => Normal st
  | x :: rest => st' ← body st x; forOf body rest st'
  end.

(** The test both parsers apply first to a line. *)
Definition isHeader (line : jsstring) : bool :=
  Str.startsWith (lit "[") line && Str.endsWith (lit "]") line.

(** [text.split('\n').map((line) => line.trim())] *)
Definition linesOf (text : jsstring) : list jsstring :=
  Str.trim <$> Str.split LF text.

(** ** The regular expression of [src/code.ts] *)

Module Regex.

(** [.] matches every code unit but a line terminator. *)
Definition dot (c : N) : bool := negb (Str.isLineTerminator c).

(** The greedy [(.+)] that ends the pattern: the longest run of [.]. *)
Fixpoint takeDots (s : jsstring) : jsstring :=
  match s with
  | c :: r => if dot c then c :: takeDots r else []
  | [] => []
  end.

(** Group 1 holds one code unit or more already and [s] is what follows.
    The group is greedy: it first tries to take one more code unit, and
    only when the rest cannot match that way does it stop here, where
    [}=>] and a non-empty group 2 must follow.  The result is the rest of
    group 1 and group 2. *)
Fixpoint group1 (s : jsstring) : option (jsstring * jsstring) :=
  match s with
  | [] => None
  | c :: r =>
      match (if dot c then group1 r else None) with
      | Some (g1, g2) => Some (c :: g1, g2)
      | None =>
          if Str.startsWith (lit "}=>") s then
            match takeDots (drop 3 s) with
            | [] => None
            | g2 => Some ([], g2)
            end
          else None
      end
  end.

(** The pattern [={(.+)}=>(.+)] tried at the start of [s]. *)
Definition matchHere (s : jsstring) : option (jsstring * jsstring) :=
  if Str.startsWith (lit "={") s then
    match drop 2 s with
    | c :: r =>
        if dot c then
          match group1 r with
          | Some (g1, g2) => Some (c :: g1, g2)
          | None => None
          end
        else None
    | [] => None
    end
  else None.

(** [s.match(/={(.+)}=>(.+)/)]: the leftmost match; the result holds the
    two groups, [match[1]] and [match[2]]. *)
Fixpoint exec (s : jsstring) : option (jsstring * jsstring) :=
  match matchHere s with
  | Some m => Some m
  | None => match s with _ :: r => exec r | [] => None end
  end.

End Regex.

(** [o === 'c'] for the result [o] of [line[0]]. *)
Definition charIs (o : option N) (c : string) : bool :=
  match o, lit c with
  | Some d, [e] => d =? e
  | _, _ => false
  end.

(** ** The host

    The plugin API of Figma is not code of this repository.  The model keeps
    what the renderers rely on: every [create...] call makes a new node with
    an id no other node has, and [loadFontAsync] resolves or rejects. *)

Module Figma.

Record FontName := { family : jsstring; style : jsstring }.

(** A sticky note or a frame. *)
Record SceneNode := { id : nat; x : Z; y : Z }.

(** A text: the text layer of a sticky note ([owner] is the note), a text
    node appended to a frame ([owner] is the frame), or a free label. *)
Record TextNode := {
  owner : option nat;
  characters : jsstring;
  fontSize : option Z;
}.

Record ConnectorNode := {
  strokeWeight : Z;
  connectorStart : nat;  (* [endpointNodeId] of the start *)
  connectorEnd : nat;    (* [endpointNodeId] of the end *)
}.

Record Host := {
  fontLoads : FontName → bool;
  created : nat;   (* the nodes made so far; the next id *)
  nodes : list SceneNode;
  texts : list TextNode;
  connectors : list ConnectorNode;
}.

Definition loadFontAsync (f : FontName) (h : Host) : completion Host :=
  if fontLoads h f then Normal h else Throw Rejected.

(** [createSticky()] or [createFrame()], with the position set after it. *)
Definition createNode (px py : Z) (h : Host) : SceneNode * Host :=
  let node := {| id := created h; x := px; y := py |} in
  (node, {| fontLoads := fontLoads h; created := S (created h);
            nodes := nodes h ++ [node]; texts := texts h;
            connectors := connectors h |}).

(** [createText()], with the characters and the font size set after it, and
    the frame it is appended to, if any. *)
Definition createText (parent : option nat) (chars : jsstring) (size : Z) (h : Host)
  : Host :=
  {| fontLoads := fontLoads h; created := S (created h);
     nodes := nodes h;
     texts := texts h ++
       [{| owner := parent; characters := chars; fontSize := Some size |}];
     connectors := connectors h |}.

(** [node.text.characters = chars] on a sticky note. *)
Definition setStickyText (node : SceneNode) (chars : jsstring) (h : Host) : Host :=
  {| fontLoads := fontLoads h; created := created h;
     nodes := nodes h;
     texts := texts h ++
       [{| owner := Some (id node); characters := chars; fontSize := None |}];
     connectors := connectors h |}.

(** [createConnector()], with the weight and both ends set after it. *)
Definition createConnector (weight : Z) (source target : SceneNode) (h : Host) : Host :=
  {| fontLoads := fontLoads h; created := S (created h);
     nodes := nodes h; texts := texts h;
     connectors := connectors h ++
       [{| strokeWeight := weight; connectorStart := id source;
           connectorEnd := id target |}] |}.

(** The two node ids a connector joins. *)
Definition ends (c : ConnectorNode) : nat * nat :=
  (connectorStart c, connectorEnd c).

Definition Inter_Medium : FontName :=
  {| family := lit "Inter"; style := lit "Medium" |}.

Definition SpaceMono_Regular : FontName :=
  {| family := lit "Space Mono"; style := lit "Regular" |}.

End Figma.

(** ** The parser of [src/code.ts] *)

Module CodeTs.

Inductive ElementType := screen | requirement | component | usecase.

Inductive ComponentType := text | field | button | action.

Module Component.
Record t := mk { type : ComponentType; name : jsstring }.
End Component.

Module Transition.
Record t := mk { to : jsstring; condition : option jsstring }.
End Transition.

Record Requirements := {
  performance : option jsstring;
  security : option jsstring;
  availability : option jsstring;
  usability : option jsstring;
}.

(** The fields marked [?] in the interface may be [undefined]. *)
Record ScreenElement := {
  type : ElementType;
  name : jsstring;
  requirements : option Requirements;
  components : option (list Component.t);
  transitions : option (list Transition.t);
}.

Record ScreenFlowParser := {
  screens : list ScreenElement;
  currentScreen : option ScreenElement;
}.

Definition setCurrent (p : ScreenFlowParser) (s : ScreenElement) : ScreenFlowParser :=
  {| screens := screens p; currentScreen := Some s |}.

Definition setRequirements (s : ScreenElement) (r : Requirements) : ScreenElement :=
  {| type := type s; name := name s; requirements := Some r;
     components := components s; transitions := transitions s |}.

(** [s.components!.push(c)] *)
Definition pushComponent (s : ScreenElement) (c : Component.t)
  : completion ScreenElement :=
  cs ← defined (components s);
  mret {| type := type s; name := name s; requirements := requirements s;
          components := Some (cs ++ [c]); transitions := transitions s |}.

(** [s.transitions!.push(t)] *)
Definition pushTransition (s : ScreenElement) (t : Transition.t)
  : completion ScreenElement :=
  ts ← defined (transitions s);
  mret {| type := type s; name := name s; requirements := requirements s;
          components := components s; transitions := Some (ts ++ [t]) |}.

(** The screen a header line opens. *)
Definition newScreen (line : jsstring) : ScreenElement :=
  {| type := screen;
     name := Str.slice line 1 (Some (-1)%Z);
     requirements := Some {| performance := None; security := None;
                             availability := None; usability := None |};
     components := Some [];
     transitions := Some [] |}.

(** The [switch (type.trim())] of the requirement branch. *)
Definition setRequirement (r : Requirements) (category description : jsstring)
  : Requirements :=
  if Str.eqb category (lit "P") then
    {| performance := Some description; security := security r;
       availability := availability r; usability := usability r |}
  else if Str.eqb category (lit "S") then
    {| performance := performance r; security := Some description;
       availability := availability r; usability := usability r |}
  else if Str.eqb category (lit "A") then
    {| performance := performance r; security := security r;
       availability := Some description; usability := usability r |}
  else if Str.eqb category (lit "U") then
    {| performance := performance r; security := security r;
       availability := availability r; usability := Some description |}
  else r.

Definition isComponentLine (line : jsstring) : bool :=
  Str.startsWith (lit "T ") line || Str.startsWith (lit "E ") line
  || Str.startsWith (lit "B ") line || Str.startsWith (lit "A ") line.

(** The body of the loop over the lines. *)
Definition step (p : ScreenFlowParser) (line : jsstring)
  : completion ScreenFlowParser :=
  if Str.eqb line [] then mret p
  else if isHeader line then
    mret {| screens := match currentScreen p with
                       | Some s => screens p ++ [s]
                       | None => screens p
                       end;
            currentScreen := Some (newScreen line) |}
  else if Str.startsWith (lit "//") line then
    let parts := Str.split 58 (Str.slice line 2 None) in
    let type := head parts in
    let description := tail parts in
    match currentScreen p with
    | Some s =>
        match requirements s with
        | Some r =>
            ty ← defined type;
            mret (setCurrent p (setRequirements s
                    (setRequirement r (Str.trim ty)
                       (Str.trim (Str.join (lit ":") description)))))
        | None => mret p
        end
    | None => mret p
    end
  else if isComponentLine line then
    let type := head line in
    let name := Str.slice line 2 None in
    match currentScreen p with
    | Some s =>
        s' ← pushComponent s
               {| Component.type :=
                    if charIs type "T" then text
                    else if charIs type "E" then field
                    else if charIs type "B" then button
                    else action;
                  Component.name := name |};
        mret (setCurrent p s')
    | None => mret p
    end
  else if Str.startsWith (lit "=>") line then
    match currentScreen p with
    | Some s =>
        s' ← pushTransition s
               {| Transition.to := Str.trim (Str.slice line 2 None);
                  Transition.condition := None |};
        mret (setCurrent p s')
    | None => mret p
    end
  else if Str.startsWith (lit "={") line then
    match Regex.exec line, currentScreen p with
    | Some (g1, g2), Some s =>
        s' ← pushTransition s
               {| Transition.to := Str.trim g2;
                  Transition.condition := Some (Str.trim g1) |};
        mret (setCurrent p s')
    | _, _ => mret p
    end
  else mret p.

(** What follows the loop: the screen still open is pushed. *)
Definition finish (p : ScreenFlowParser) : list ScreenElement :=
  match currentScreen p with
  | Some s => screens p ++ [s]
  | None => screens p
  end.

Definition initial : ScreenFlowParser :=
  {| screens := []; currentScreen := None |}.

Definition parse (text : jsstring) : completion (list ScreenElement) :=
  p ← forOf step (linesOf text) initial;
  mret (finish p).

(** *** What one line adds to the open screen *)

Definition lineComponents (line : jsstring) : list Component.t :=
  if Str.eqb line [] then []
  else if Str.startsWith (lit "//") line then []
  else if isComponentLine line then
    [{| Component.type :=
          if charIs (head line) "T" then text
          else if charIs (head line) "E" then field
          else if charIs (head line) "B" then button
          else action;
        Component.name := Str.slice line 2 None |}]
  else [].

Definition lineTransitions (line : jsstring) : list Transition.t :=
  if Str.eqb line [] then []
  else if Str.startsWith (lit "//") line then []
  else if isComponentLine line then []
  else if Str.startsWith (lit "=>") line then
    [{| Transition.to := Str.trim (Str.slice line 2 None);
        Transition.condition := None |}]
  else if Str.startsWith (lit "={") line then
    match Regex.exec line with
    | Some (g1, g2) =>
        [{| Transition.to := Str.trim g2;
            Transition.condition := Some (Str.trim g1) |}]
    | None => []
    end
  else [].

Definition lineRequirements (r : Requirements) (line : jsstring) : Requirements :=
  if Str.eqb line [] then r
  else if Str.startsWith (lit "//") line then
    match Str.split 58 (Str.slice line 2 None) with
    | ty :: description =>
        setRequirement r (Str.trim ty) (Str.trim (Str.join (lit ":") description))
    | [] => r
    end
  else r.

(** The category a requirement line names: [type.trim()]. *)
Definition requirementCategory (line : jsstring) : option jsstring :=
  if Str.eqb line [] then None
  else if Str.startsWith (lit "//") line then
    Str.trim <$> head (Str.split 58 (Str.slice line 2 None))
  else None.

Definition noRequirements : Requirements :=
  {| performance := None; security := None;
     availability := None; usability := None |}.

(** The screen of a header line and the lines up to the next header. *)
Definition screenOf (b : jsstring * list jsstring) : ScreenElement :=
  {| type := screen;
     name := Str.slice b.1 1 (Some (-1)%Z);
     requirements := Some (foldl lineRequirements noRequirements b.2);
     components := Some (concat (lineComponents <$> b.2));
     transitions := Some (concat (lineTransitions <$> b.2)) |}.

(** The effect of a line that is no header on the open screen. *)
Definition update (s : ScreenElement) (line : jsstring) : ScreenElement :=
  {| type := type s;
     name := name s;
     requirements := (λ r, lineRequirements r line) <$> requirements s;
     components := (λ cs, cs ++ lineComponents line) <$> components s;
     transitions := (λ ts, ts ++ lineTransitions line) <$> transitions s |}.

(** A screen with none of its optional fields missing. *)
Definition complete (s : ScreenElement) : Prop :=
  is_Some (requirements s) ∧ is_Some (components s) ∧ is_Some (transitions s).

(** The lines no branch of the loop takes. *)
Definition unrecognized (line : jsstring) : bool :=
  negb (Str.eqb line []) && negb (isHeader line)
  && negb (Str.startsWith (lit "//") line) && negb (isComponentLine line)
  && negb (Str.startsWith (lit "=>") line)
  && negb (Str.startsWith (lit "={") line).

(** *** The renderer *)

Definition spacing : Z := 150.

(** A string is truthy when it is not empty. *)
Definition truthy (o : option jsstring) : bool :=
  match o with
  | Some (_ :: _) => true
  | _ => false
  end.

Definition requirementText (tag : string) (o : option jsstring) : jsstring :=
  if truthy o then lit tag ++ lit ": " ++ default [] o ++ [LF] else [].

(** [component.type.toUpperCase()] *)
Definition upperCase (t : ComponentType) : jsstring :=
  match t with
  | text => lit "TEXT"
  | field => lit "FIELD"
  | button => lit "BUTTON"
  | action => lit "ACTION"
  end.

(** The text of the sticky note. *)
Definition contentOf (scr : ScreenElement) : jsstring :=
  lit "[" ++ name scr ++ lit "]" ++ [LF; LF]
  ++ match requirements scr with
     | Some r =>
         requirementText "P" (performance r) ++ requirementText "S" (security r)
         ++ requirementText "A" (availability r) ++ requirementText "U" (usability r)
         ++ [LF]
     | None => []
     end
  ++ match components scr with
     | Some cs =>
         concat ((λ c, upperCase (Component.type c) ++ lit ": "
                       ++ Component.name c ++ [LF]) <$> cs)
     | None => []
     end.

Definition createScreenNode (scr : ScreenElement) (px py : Z) (h : Figma.Host)
  : completion (Figma.SceneNode * Figma.Host) :=
  let '(node, h1) := Figma.createNode px py h in
  h2 ← Figma.loadFontAsync Figma.Inter_Medium h1;
  mret (node, Figma.setStickyText node (contentOf scr) h2).

(** First pass: [for (let i = 0; i < screens.length; i++)], from index [i]. *)
Fixpoint place (i : nat) (screens : list ScreenElement)
  (screenNodes : gmap jsstring Figma.SceneNode) (h : Figma.Host)
  : completion (gmap jsstring Figma.SceneNode * Figma.Host) :=
  match screens with
  | [] => mret (screenNodes, h)
  | scr :: rest =>
      '(node, h1) ← createScreenNode scr (0 + Z.of_nat i * spacing * 2)%Z 0%Z h;
      place (S i) rest (<[name scr := node]> screenNodes) h1
  end.

(** The body of the inner loop over the transitions of one screen.  The
    position of the label is pixel arithmetic read by nothing else; it is
    left out. *)
Definition connectTransition (screenNodes : gmap jsstring Figma.SceneNode)
  (sourceNode : Figma.SceneNode) (h : Figma.Host) (transition : Transition.t)
  : completion Figma.Host :=
  match screenNodes !! Transition.to transition with
  | None => mret h
  | Some targetNode =>
      let h1 := Figma.createConnector 2 sourceNode targetNode h in
      if truthy (Transition.condition transition) then
        h2 ← Figma.loadFontAsync Figma.SpaceMono_Regular h1;
        mret (Figma.createText None (default [] (Transition.condition transition)) 12 h2)
      else mret h1
  end.

(** The body of the second pass. *)
Definition connectScreen (screenNodes : gmap jsstring Figma.SceneNode)
  (h : Figma.Host) (scr : ScreenElement) : completion Figma.Host :=
  match screenNodes !! name scr, transitions scr with
  | Some sourceNode, Some ts => forOf (connectTransition screenNodes sourceNode) ts h
  | _, _ => mret h
  end.

Definition render (screens : list ScreenElement) (h : Figma.Host)
  : completion Figma.Host :=
  h0 ← Figma.loadFontAsync Figma.Inter_Medium h;
  '(screenNodes, h1) ← place 0 screens ∅ h0;
  forOf (connectScreen screenNodes) screens h1.

(** The ends of the connectors of a document, when [resolve] is how a
    screen name is resolved to a node. *)
Definition connectorsOf (resolve : jsstring → option Figma.SceneNode)
  (screens : list ScreenElement) : list (nat * nat) :=
  concat
    ((λ scr,
        match resolve (name scr), transitions scr with
        | Some sourceNode, Some ts =>
            omap (λ t, (λ targetNode, (Figma.id sourceNode, Figma.id targetNode))
                       <$> resolve (Transition.to t)) ts
        | _, _ => []
        end) <$> screens).

End CodeTs.

(** ** The parser of the second source file *)

Module Part000.

Inductive ElementType := screen.

Inductive ComponentType := text | button | action | other.

Module Component.
Record t := mk { type : ComponentType; name : jsstring }.
End Component.

Module Transition.
Record t := mk { from : jsstring; to : jsstring }.
End Transition.

Record ScreenElement := {
  type : ElementType;
  name : jsstring;
  components : list Component.t;
  transitions : list Transition.t;
  sections : list jsstring;
}.

Record ScreenFlowParser := {
  screens : list ScreenElement;
  currentScreen : option ScreenElement;
}.

Definition setCurrent (p : ScreenFlowParser) (s : ScreenElement) : ScreenFlowParser :=
  {| screens := screens p; currentScreen := Some s |}.

Definition pushSection (s : ScreenElement) (l : jsstring) : ScreenElement :=
  {| type := type s; name := name s; components := components s;
     transitions := transitions s; sections := sections s ++ [l] |}.

Definition pushTransition (s : ScreenElement) (t : Transition.t) : ScreenElement :=
  {| type := type s; name := name s; components := components s;
     transitions := transitions s ++ [t]; sections := sections s |}.

Definition pushComponent (s : ScreenElement) (c : Component.t) : ScreenElement :=
  {| type := type s; name := name s; components := components s ++ [c];
     transitions := transitions s; sections := sections s |}.

Definition newScreen (line : jsstring) : ScreenElement :=
  {| type := screen;
     name := Str.slice line 1 (Some (-1)%Z);
     components := [];
     transitions := [];
     sections := [] |}.

Definition isComponentLine (line : jsstring) : bool :=
  Str.startsWith (lit "T ") line || Str.startsWith (lit "B ") line
  || Str.startsWith (lit "A ") line || Str.startsWith (lit "O ") line.

(** The body of the loop over the lines. *)
Definition step (p : ScreenFlowParser) (line : jsstring)
  : completion ScreenFlowParser :=
  if Str.eqb line [] then mret p
  else if isHeader line then
    mret {| screens := match currentScreen p with
                       | Some s => screens p ++ [s]
                       | None => screens p
                       end;
            currentScreen := Some (newScreen line) |}
  else if Str.eqb line (lit "--") then
    match currentScreen p with
    | Some s => mret (setCurrent p (pushSection s line))
    | None => mret p
    end
  else if Str.includes (lit "=>") line then
    match currentScreen p with
    | Some s =>
        let parts : list jsstring := Str.trim <$> Str.split2 61 62 line in
        let action' := parts !! 0%nat in
        let target := parts !! 1%nat in
        a ← defined action';
        let actionName := Str.slice a 2 None in
        tgt ← typed target;
        mret (setCurrent p
                (pushComponent
                   (pushTransition s
                      {| Transition.from := actionName; Transition.to := tgt |})
                   {| Component.type := action; Component.name := actionName |}))
    | None => mret p
    end
  else if isComponentLine line then
    match currentScreen p with
    | Some s =>
        let type := head line in
        let name := Str.slice line 2 None in
        mret (setCurrent p
                (pushComponent s
                   {| Component.type :=
                        if charIs type "T" then text
                        else if charIs type "B" then button
                        else if charIs type "A" then action
                        else other;
                      Component.name := name |}))
    | None => mret p
    end
  else mret p.

Definition finish (p : ScreenFlowParser) : list ScreenElement :=
  match currentScreen p with
  | Some s => screens p ++ [s]
  | None => screens p
  end.

Definition initial : ScreenFlowParser :=
  {| screens := []; currentScreen := None |}.

Definition parse (text : jsstring) : completion (list ScreenElement) :=
  p ← forOf step (linesOf text) initial;
  mret (finish p).

(** *** What one line adds to the open screen *)

(** The label and the target a line with [=>] is read as. *)
Definition arrowParts (line : jsstring) : list jsstring :=
  Str.trim <$> Str.split2 61 62 line.

Definition lineSections (line : jsstring) : list jsstring :=
  if Str.eqb line [] then []
  else if Str.eqb line (lit "--") then [line]
  else [].

Definition lineTransitions (line : jsstring) : list Transition.t :=
  if Str.eqb line [] then []
  else if Str.eqb line (lit "--") then []
  else if Str.includes (lit "=>") line then
    match arrowParts line with
    | a :: tgt :: _ =>
        [{| Transition.from := Str.slice a 2 None; Transition.to := tgt |}]
    | _ => []
    end
  else [].

Definition lineComponents (line : jsstring) : list Component.t :=
  if Str.eqb line [] then []
  else if Str.eqb line (lit "--") then []
  else if Str.includes (lit "=>") line then
    match arrowParts line with
    | a :: tgt :: _ =>
        [{| Component.type := action; Component.name := Str.slice a 2 None |}]
    | _ => []
    end
  else if isComponentLine line then
    [{| Component.type :=
          if charIs (head line) "T" then text
          else if charIs (head line) "B" then button
          else if charIs (head line) "A" then action
          else other;
        Component.name := Str.slice line 2 None |}]
  else [].

(** The screen of a header line and the lines up to the next header. *)
Definition screenOf (b : jsstring * list jsstring) : ScreenElement :=
  {| type := screen;
     name := Str.slice b.1 1 (Some (-1)%Z);
     components := concat (lineComponents <$> b.2);
     transitions := concat (lineTransitions <$> b.2);
     sections := concat (lineSections <$> b.2) |}.

(** The effect of a line that is no header on the open screen. *)
Definition update (s : ScreenElement) (line : jsstring) : ScreenElement :=
  {| type := type s;
     name := name s;
     components := components s ++ lineComponents line;
     transitions := transitions s ++ lineTransitions line;
     sections := sections s ++ lineSections line |}.

(** The lines no branch of the loop takes. *)
Definition unrecognized (line : jsstring) : bool :=
  negb (Str.eqb line []) && negb (isHeader line)
  && negb (Str.eqb line (lit "--")) && negb (Str.includes (lit "=>") line)
  && negb (isComponentLine line).

(** *** The renderer *)

Definition spacing : Z := 300.

Definition getComponentPrefix (t : ComponentType) : jsstring :=
  match t with
  | text => lit "T"
  | button => lit "B"
  | action => lit "A"
  | other => lit "O"
  end.

(** The text in the frame: a blank line goes before an action when the
    screen has a section break and the text does not end in one already. *)
Definition contentOf (scr : ScreenElement) : jsstring :=
  foldl
    (λ content c,
       (if existsb (Str.eqb (lit "--")) (sections scr)
           && match Component.type c with action => true | _ => false end
           && negb (Str.endsWith [LF; LF] content)
        then content ++ [LF] else content)
       ++ getComponentPrefix (Component.type c) ++ lit ": "
       ++ Component.name c ++ [LF])
    (lit "[" ++ name scr ++ lit "]" ++ [LF; LF])
    (components scr).

(** The frame and the text node appended to it. *)
Definition createScreenNode (scr : ScreenElement) (px py : Z) (h : Figma.Host)
  : completion (Figma.SceneNode * Figma.Host) :=
  let '(frame, h1) := Figma.createNode px py h in
  h2 ← Figma.loadFontAsync Figma.Inter_Medium h1;
  mret (frame, Figma.createText (Some (Figma.id frame)) (contentOf scr) 12 h2).

(** First pass: [for (let i = 0; i < screens.length; i++)], from index [i]. *)
Fixpoint place (i : nat) (screens : list ScreenElement)
  (screenNodes : gmap jsstring Figma.SceneNode) (h : Figma.Host)
  : completion (gmap jsstring Figma.SceneNode * Figma.Host) :=
  match screens with
  | [] => mret (screenNodes, h)
  | scr :: rest =>
      '(node, h1) ← createScreenNode scr (100 + Z.of_nat i * spacing)%Z 100%Z h;
      place (S i) rest (<[name scr := node]> screenNodes) h1
  end.

(** The body of the inner loop over the transitions of one screen.  The
    position of the label is pixel arithmetic on a width the host measures;
    it is left out. *)
Definition connectTransition (screenNodes : gmap jsstring Figma.SceneNode)
  (sourceNode : Figma.SceneNode) (h : Figma.Host) (transition : Transition.t)
  : completion Figma.Host :=
  match screenNodes !! Transition.to transition with
  | None => mret h
  | Some targetNode =>
      let h1 := Figma.createConnector 2 sourceNode targetNode h in
      h2 ← Figma.loadFontAsync Figma.Inter_Medium h1;
      mret (Figma.createText None (Transition.from transition) 10 h2)
  end.

(** The body of the second pass. *)
Definition connectScreen (screenNodes : gmap jsstring Figma.SceneNode)
  (h : Figma.Host) (scr : ScreenElement) : completion Figma.Host :=
  match screenNodes !! name scr with
  | Some sourceNode =>
      forOf (connectTransition screenNodes sourceNode) (transitions scr) h
  | None => mret h
  end.

Definition render (screens : list ScreenElement) (h : Figma.Host)
  : completion Figma.Host :=
  h0 ← Figma.loadFontAsync Figma.Inter_Medium h;
  '(screenNodes, h1) ← place 0 screens ∅ h0;
  forOf (connectScreen screenNodes) screens h1.

(** The ends of the connectors of a document, when [resolve] is how a
    screen name is resolved to a node. *)
Definition connectorsOf (resolve : jsstring → option Figma.SceneNode)
  (screens : list ScreenElement) : list (nat * nat) :=
  concat
    ((λ scr,
        match resolve (name scr) with
        | Some sourceNode =>
            omap (λ t, (λ targetNode, (Figma.id sourceNode, Figma.id targetNode))
                       <$> resolve (Transition.to t)) (transitions scr)
        | None => []
        end) <$> screens).

End Part000.

(** ** How both parsers cut a document into screens

    Both loops have one shape: a header line pushes the open screen and opens
    a new one, every other line acts on the open screen only.  [blocks] reads
    the same document at once: each header line with the lines up to the next
    header. *)

Fixpoint bodyOf (lines : list jsstring) : list jsstring :=
  match lines with
  | l :: rest => if isHeader l then [] else l :: bodyOf rest
  | [] => []
  end.

Fixpoint blocks (lines : list jsstring) : list (jsstring * list jsstring) :=
  match lines with
  | l :: rest =>
      if isHeader l then (l, bodyOf rest) :: blocks rest else blocks rest
  | [] => []
  end.

(** The header lines of a document, in document order. *)
Definition headers (lines : list jsstring) : list jsstring :=
  List.filter isHeader lines.



(** The pure reading of the loop: what is pushed so far, and the open screen. *)
Section Skeleton.
Context {Screen : Type}.
Variable fresh : jsstring → Screen.
Variable upd : Screen → jsstring → Screen.

Definition commit (st : list Screen * option Screen) : list Screen :=
  match st.2 with
  | Some s => st.1 ++ [s]
  | None => st.1
  end.

Definition advance (st : list Screen * option Screen) (line : jsstring)
  : list Screen * option Screen :=
  if isHeader line then (commit st, Some (fresh line))
  else (st.1, (λ s, upd s line) <$> st.2).

Definition build (b : jsstring * list jsstring) : Screen :=
  foldl upd (fresh b.1) b.2.

End Skeleton.

(** The node made for the last screen that bears the name [n], when [nodes]
    are the nodes made for [names], one each and in this order. *)
Definition nodeOfLast (names : list jsstring) (nodes : list Figma.SceneNode)
  (n : jsstring) : option Figma.SceneNode :=
  last (omap (λ p, if decide (p.1 = n) then Some p.2 else None) (zip names nodes)).

(** ** The text in a frame of the second renderer, line by line

    [frameLines hasBreak atStart cs] is what the loop of [createScreenNode]
    adds for the components [cs]: one line for each, and an empty line before
    an action when the screen has a section break, but for an action that
    stands right after the title ([atStart]). *)
Fixpoint frameLines (hasBreak atStart : bool) (cs : list Part000.Component.t)
  : jsstring :=
  match cs with
  | [] => []
  | c :: rest =>
      (if hasBreak
          && match Part000.Component.type c with
             | Part000.action => true
             | _ => false
             end
          && negb atStart
       then [LF] else [])
      ++ Part000.getComponentPrefix (Part000.Component.type c) ++ lit ": "
      ++ Part000.Component.name c ++ [LF]
      ++ frameLines hasBreak false rest
  end.

(** ** The labels of the first renderer

    The renderer of [src/code.ts] writes a label, and loads the font for it,
    for a transition with a condition that is not empty and a target that is
    the name of a screen. *)
Definition labelled (names : list jsstring) (t : CodeTs.Transition.t) : bool :=
  bool_decide (CodeTs.Transition.to t ∈ names)
  && CodeTs.truthy (CodeTs.Transition.condition t).

Definition needsLabelFont (screens : list CodeTs.ScreenElement) : bool :=
  existsb
    (λ scr, existsb (labelled (CodeTs.name <$> screens))
              (default [] (CodeTs.transitions scr)))
    screens.

(** The requirements a screen of [src/code.ts] has. *)
Definition requirementValues (r : CodeTs.Requirements) : list jsstring :=
  omap id [CodeTs.performance r; CodeTs.security r;
           CodeTs.availability r; CodeTs.usability r].

(** ** The message handler

    Both files end with the same handler on [figma.ui.onmessage]: a message
    of type [create-flow] is parsed and rendered inside [try]; the handler
    then notifies the success, or the error it caught. *)

Module Message.
Record t := mk { type : jsstring; text : option jsstring }.
End Message.

(** [figma.notify(message, { error })] *)
Record Notification := { message : jsstring; error : bool }.

Inductive Handled :=
| Ignored                                    (* the message is of another type *)
| Generated (h : Figma.Host) (n : Notification)
| Caught (n : Notification).  (* what was drawn before the error stays drawn *)

Section Handler.
Context {Screen : Type}.
Variable parse : jsstring → completion (list Screen).
Variable render : list Screen → Figma.Host → completion Figma.Host.
(** [error.message], which the engine and the host write. *)
Variable describe : Failure → jsstring.

Definition onmessage (msg : Message.t) (h : Figma.Host) : Handled :=
  if Str.eqb (Message.type msg) (lit "create-flow") then
    match (text ← defined (Message.text msg);
           screens ← parse text;
           render screens h) with
    | Normal h' =>
        Generated h'
          {| message := lit "Screen flow generated successfully!";
             error := false |}
    | Throw e =>
        Caught
          {| message :=
               lit "Error generating screen flow: "
               ++ match describe e with
                  | [] => lit "Unknown error"
                  | m => m
                  end;
             error := true |}
    end
  else Ignored.

End Handler.

(** * Facts *)

(** ** Strings *)

Lemma eqb_eq s t : Str.eqb s t = true ↔ s = t.
Proof.
  revert t. induction s as [|c s IH]; intros [|d t]; simpl; try done.
  rewrite andb_true_iff, N.eqb_eq, IH. split; [by intros [-> ->]|by intros [= -> ->]].
Qed.

Lemma eqb_neq s t : Str.eqb s t = false ↔ s ≠ t.
Proof. rewrite <- eqb_eq. by destruct (Str.eqb s t). Qed.

Lemma startsWith_prefix p s : Str.startsWith p s = true ↔ ∃ r, s = p ++ r.
Proof.
  revert s. induction p as [|c p IH]; intros s; simpl.
  - split; [by exists s|done].
  - destruct s as [|d s]; [split; [done|by intros [? ?]]|].
    rewrite andb_true_iff, N.eqb_eq, IH. split.
    + intros [-> [r ->]]. by exists r.
    + intros [r [= -> ->]]. eauto.
Qed.

Lemma split_cons sep s : ∃ h t, Str.split sep s = h :: t.
Proof.
  induction s as [|c s [h [t IH]]]; simpl; [by eauto|].
  destruct (c =? sep); [by eauto|]. rewrite IH. simpl. eauto.
Qed.

Lemma split_app sep a b :
  Str.split sep (a ++ sep :: b) = Str.split sep a ++ Str.split sep b.
Proof.
  induction a as [|c a IH]; simpl.
  - by rewrite N.eqb_refl.
  - rewrite IH. destruct (c =? sep); [done|].
    by destruct (split_cons sep a) as [h [t ->]].
Qed.

Lemma split_whole sep s : sep ∉ s → Str.split sep s = [s].
Proof.
  induction s as [|c s IH]; simpl; [done|]. intros H.
  apply not_elem_of_cons in H as [Hc Hs].
  destruct (N.eqb_spec c sep) as [->|_]; [done|]. by rewrite IH.
Qed.

(** The parts after the first, joined again, are what follows the first
    separator. *)
Lemma join_split sep s : Str.join [sep] (Str.split sep s) = s.
Proof.
  induction s as [|c s IH]; [done|]. cbn [Str.split].
  destruct (split_cons sep s) as [h [t Hs]]. rewrite Hs in *.
  destruct (N.eqb_spec c sep) as [->|_].
  - change (Str.join [sep] ([] :: h :: t))
      with ([] ++ [sep] ++ Str.join [sep] (h :: t)).
    by rewrite IH.
  - cbn [Str.consHead]. destruct t as [|q t]; [simpl in *; by rewrite IH|].
    change (Str.join [sep] ((c :: h) :: q :: t))
      with (c :: h ++ [sep] ++ Str.join [sep] (q :: t)).
    by rewrite <- IH.
Qed.

Lemma slice_from_2 a b r : Str.slice (a :: b :: r) 2 None = r.
Proof.
  unfold Str.slice, Str.relIndex. simpl length.
  replace (2 <? 0)%Z with false by done. rewrite Z.min_l by lia.
  change (Z.to_nat 2) with 2%nat. simpl drop.
  replace (Z.to_nat _) with (length r) by lia. apply take_ge. lia.
Qed.

Lemma split2_unfold a b c d r :
  Str.split2 a b (c :: d :: r)
  = if (c =? a) && (d =? b) then [] :: Str.split2 a b r
    else Str.consHead c (Str.split2 a b (d :: r)).
Proof. reflexivity. Qed.

Lemma split2_cons a b s : ∃ h t, Str.split2 a b s = h :: t.
Proof.
  remember (length s) as n eqn:Hn. revert s Hn.
  induction n as [n IH] using lt_wf_ind. intros s ->.
  destruct s as [|c [|d r]]; [simpl; by eauto..|].
  rewrite split2_unfold.
  destruct ((c =? a) && (d =? b)); [by eauto|].
  destruct (IH (length (d :: r)) ltac:(simpl; lia) (d :: r) eq_refl) as [h [t Hs]].
  rewrite Hs. simpl. eauto.
Qed.

(** A line that holds [=>] splits into two parts at least. *)
Lemma includes_split2 s :
  Str.includes (lit "=>") s = true →
  ∃ x y rest, Str.split2 61 62 s = x :: y :: rest.
Proof.
  induction s as [|c s IH]; [done|].
  change (Str.includes (lit "=>") (c :: s))
    with (Str.startsWith (lit "=>") (c :: s) || Str.includes (lit "=>") s).
  destruct (Str.startsWith (lit "=>") (c :: s)) eqn:Hp.
  - intros _. apply startsWith_prefix in Hp as [r Hr]. injection Hr as -> ->.
    simpl. destruct (split2_cons 61 62 r) as [h [t ->]]. eauto.
  - intros Hi. destruct s as [|d r]; [done|].
    destruct (IH Hi) as [x [y [rest Hs]]].
    rewrite split2_unfold. destruct ((c =? 61) && (d =? 62)).
    + destruct (split2_cons 61 62 r) as [h [t ->]]. eauto.
    + rewrite Hs. simpl. eauto.
Qed.

Lemma isHeader_not_empty line : isHeader line = true → Str.eqb line [] = false.
Proof. by destruct line. Qed.

(** The operations on small inputs. *)

Example trim_both_ends :
  Str.trim ([9; 32] ++ lit "A go => B" ++ [32; 13; 12288]) = lit "A go => B".
Proof. reflexivity. Qed.

Example slice_header : Str.slice (lit "[Login]") 1 (Some (-1)%Z) = lit "Login".
Proof. reflexivity. Qed.

Example split_keeps_empty_parts :
  Str.split 58 (lit " P: a::b") = [lit " P"; lit " a"; []; lit "b"].
Proof. reflexivity. Qed.

Example split2_left_to_right :
  Str.split2 61 62 (lit "a==>b=>") = [lit "a="; lit "b"; []].
Proof. reflexivity. Qed.

Example exec_is_greedy :
  Regex.exec (lit "={a}=>b}=>c") = Some (lit "a}=>b", lit "c").
Proof. reflexivity. Qed.

Example exec_needs_a_condition : Regex.exec (lit "={}=>Home") = None.
Proof. reflexivity. Qed.

Example exec_stops_at_line_terminator :
  Regex.exec (lit "={ok}=>Home" ++ [13] ++ lit "x") = Some (lit "ok", lit "Home").
Proof. reflexivity. Qed.

(** From here on the string operations are kept folded. *)
#[local] Arguments lit : simpl never.
#[local] Arguments Str.eqb : simpl never.
#[local] Arguments Str.startsWith : simpl never.
#[local] Arguments Str.endsWith : simpl never.
#[local] Arguments Str.includes : simpl never.
#[local] Arguments Str.slice : simpl never.
#[local] Arguments Str.trim : simpl never.
#[local] Arguments Str.split : simpl never.
#[local] Arguments Str.split2 : simpl never.
#[local] Arguments Str.join : simpl never.
#[local] Arguments Regex.exec : simpl never.
#[local] Arguments isHeader : simpl never.
#[local] Arguments CodeTs.isComponentLine : simpl never.
#[local] Arguments Part000.isComponentLine : simpl never.

(** ** The cut into blocks *)

Section SkeletonFacts.
Context {Screen : Type}.
Variable fresh : jsstring → Screen.
Variable upd : Screen → jsstring → Screen.

Lemma advance_open acc s lines :
  commit (foldl (advance fresh upd) (acc, Some s) lines)
  = acc ++ foldl upd s (bodyOf lines) :: (build fresh upd <$> blocks lines).
Proof.
  revert acc s. induction lines as [|l rest IH]; intros acc s; simpl; [done|].
  unfold advance at 2. destruct (isHeader l) eqn:Hl; simpl; [|apply IH].
  unfold commit at 2; simpl. rewrite IH. by rewrite <- app_assoc.
Qed.

Lemma advance_closed acc lines :
  commit (foldl (advance fresh upd) (acc, None) lines)
  = acc ++ (build fresh upd <$> blocks lines).
Proof.
  revert acc. induction lines as [|l rest IH]; intros acc; simpl.
  - by rewrite app_nil_r.
  - unfold advance at 2. destruct (isHeader l) eqn:Hl; simpl; [|apply IH].
    unfold commit at 2; simpl. apply advance_open.
Qed.

End SkeletonFacts.

Lemma blocks_skip pre rest :
  Forall (λ l, isHeader l = false) pre → blocks (pre ++ rest) = blocks rest.
Proof. induction 1 as [|l pre Hl _ IH]; simpl; [done|]. by rewrite Hl. Qed.

Lemma blocks_headers lines : fst <$> blocks lines = headers lines.
Proof.
  unfold headers. induction lines as [|l rest IH]; simpl; [done|].
  destruct (isHeader l); csimpl; by rewrite ?IH.
Qed.

(** ** The loop of [src/code.ts] against its pure reading *)

Lemma codets_complete_new line : CodeTs.complete (CodeTs.newScreen line).
Proof. repeat split; by eexists. Qed.

Lemma codets_complete_update s line :
  CodeTs.complete s → CodeTs.complete (CodeTs.update s line).
Proof.
  intros [[r Hr] [[cs Hc] [ts Ht]]]. unfold CodeTs.update, CodeTs.complete; simpl.
  rewrite Hr, Hc, Ht. repeat split; by eexists.
Qed.

Lemma codets_step_header p line :
  isHeader line = true →
  CodeTs.step p line
  = Normal {| CodeTs.screens := commit (CodeTs.screens p, CodeTs.currentScreen p);
              CodeTs.currentScreen := Some (CodeTs.newScreen line) |}.
Proof.
  intros H. unfold CodeTs.step. by rewrite (isHeader_not_empty _ H), H.
Qed.

Lemma codets_step_closed p line :
  CodeTs.currentScreen p = None → isHeader line = false →
  CodeTs.step p line = Normal p.
Proof.
  intros Hc Hh. unfold CodeTs.step. rewrite Hh, Hc.
  repeat match goal with |- context [if ?b then _ else _] => destruct b end;
    try done.
  by destruct (Regex.exec line) as [[??]|].
Qed.

Lemma codets_step_open p s line :
  CodeTs.currentScreen p = Some s → CodeTs.complete s → isHeader line = false →
  CodeTs.step p line = Normal (CodeTs.setCurrent p (CodeTs.update s line)).
Proof.
  destruct p as [scrs cur]; simpl. intros -> [[r Hr] [[cs Hc] [ts Ht]]] Hh.
  destruct s as [ty nm rq cp tr]; simpl in *. subst rq cp tr.
  unfold CodeTs.step, CodeTs.update, CodeTs.lineRequirements,
    CodeTs.lineComponents, CodeTs.lineTransitions, CodeTs.setCurrent; simpl.
  rewrite Hh.
  destruct (Str.eqb line []); [by rewrite !app_nil_r|].
  destruct (Str.startsWith (lit "//") line).
  { destruct (split_cons 58 (Str.slice line 2 None)) as [h [t ->]]; simpl.
    by rewrite !app_nil_r. }
  destruct (CodeTs.isComponentLine line); [simpl; by rewrite !app_nil_r|].
  destruct (Str.startsWith (lit "=>") line); [simpl; by rewrite !app_nil_r|].
  destruct (Str.startsWith (lit "={") line); [|by rewrite !app_nil_r].
  destruct (Regex.exec line) as [[g1 g2]|]; simpl; by rewrite !app_nil_r.
Qed.

Lemma codets_loop lines p :
  (∀ s, CodeTs.currentScreen p = Some s → CodeTs.complete s) →
  ∃ p', forOf CodeTs.step lines p = Normal p'
        ∧ (CodeTs.screens p', CodeTs.currentScreen p')
          = foldl (advance CodeTs.newScreen CodeTs.update)
              (CodeTs.screens p, CodeTs.currentScreen p) lines.
Proof.
  revert p. induction lines as [|l rest IH]; intros p Hp; simpl; [by eauto|].
  unfold advance at 2. destruct (isHeader l) eqn:Hl.
  - rewrite (codets_step_header _ _ Hl); simpl.
    apply (IH {| CodeTs.screens := _; CodeTs.currentScreen := _ |}); simpl.
    intros s [= <-]. apply codets_complete_new.
  - destruct (CodeTs.currentScreen p) as [s|] eqn:Hc; simpl.
    + rewrite (codets_step_open _ _ _ Hc (Hp _ eq_refl) Hl); simpl.
      apply (IH (CodeTs.setCurrent p (CodeTs.update s l))); simpl.
      intros s' [= <-]. by apply codets_complete_update, Hp.
    + rewrite (codets_step_closed _ _ Hc Hl); simpl.
      destruct (IH p) as [p' [Hrun Hst]]; [by rewrite Hc|].
      exists p'. by rewrite Hrun, Hst, Hc.
Qed.

Lemma codets_build b :
  build CodeTs.newScreen CodeTs.update b = CodeTs.screenOf b.
Proof.
  destruct b as [h body]. unfold build, CodeTs.screenOf; simpl.
  assert (∀ ty nm r cs ts,
    foldl CodeTs.update
      {| CodeTs.type := ty; CodeTs.name := nm; CodeTs.requirements := Some r;
         CodeTs.components := Some cs; CodeTs.transitions := Some ts |} body
    = {| CodeTs.type := ty; CodeTs.name := nm;
         CodeTs.requirements := Some (foldl CodeTs.lineRequirements r body);
         CodeTs.components := Some (cs ++ concat (CodeTs.lineComponents <$> body));
         CodeTs.transitions := Some (ts ++ concat (CodeTs.lineTransitions <$> body)) |})
    as H.
  { induction body as [|l body IH]; intros ty nm r cs ts; csimpl.
    - by rewrite !app_nil_r.
    - unfold CodeTs.update at 2; simpl. rewrite IH. by rewrite <- !app_assoc. }
  apply H.
Qed.

(** The loop of [src/code.ts] returns, and what it returns is the screens of
    the blocks of the document. *)
Lemma codets_parse_blocks text :
  CodeTs.parse text = Normal (CodeTs.screenOf <$> blocks (linesOf text)).
Proof.
  unfold CodeTs.parse.
  destruct (codets_loop (linesOf text) CodeTs.initial) as [p' [-> Hst]]; [done|].
  simpl. f_equal.
  change (CodeTs.finish p') with (commit (CodeTs.screens p', CodeTs.currentScreen p')).
  rewrite Hst. simpl. rewrite advance_closed. simpl.
  apply list_fmap_ext. intros _ b _. apply codets_build.
Qed.

(** ** The loop of the second source file against its pure reading *)

Lemma part000_step_header p line :
  isHeader line = true →
  Part000.step p line
  = Normal {| Part000.screens := commit (Part000.screens p, Part000.currentScreen p);
              Part000.currentScreen := Some (Part000.newScreen line) |}.
Proof.
  intros H. unfold Part000.step. by rewrite (isHeader_not_empty _ H), H.
Qed.

Lemma part000_step_closed p line :
  Part000.currentScreen p = None → isHeader line = false →
  Part000.step p line = Normal p.
Proof.
  intros Hc Hh. unfold Part000.step. rewrite Hh, Hc.
  by repeat match goal with |- context [if ?b then _ else _] => destruct b end.
Qed.

Lemma part000_step_open p s line :
  Part000.currentScreen p = Some s → isHeader line = false →
  Part000.step p line = Normal (Part000.setCurrent p (Part000.update s line)).
Proof.
  destruct p as [scrs cur]; simpl. intros -> Hh.
  destruct s as [ty nm cp tr sc].
  unfold Part000.step, Part000.update, Part000.lineSections,
    Part000.lineComponents, Part000.lineTransitions, Part000.setCurrent,
    Part000.arrowParts; simpl.
  rewrite Hh.
  destruct (Str.eqb line []); [by rewrite !app_nil_r|].
  destruct (Str.eqb line (lit "--")).
  { unfold Part000.pushSection; simpl. by rewrite !app_nil_r. }
  destruct (Str.includes (lit "=>") line) eqn:Hi.
  { destruct (includes_split2 _ Hi) as [x [y [rest ->]]]; simpl.
    unfold Part000.pushComponent, Part000.pushTransition; simpl.
    by rewrite !app_nil_r. }
  destruct (Part000.isComponentLine line); simpl.
  - unfold Part000.pushComponent; simpl. by rewrite !app_nil_r.
  - by rewrite !app_nil_r.
Qed.

Lemma part000_loop lines p :
  ∃ p', forOf Part000.step lines p = Normal p'
        ∧ (Part000.screens p', Part000.currentScreen p')
          = foldl (advance Part000.newScreen Part000.update)
              (Part000.screens p, Part000.currentScreen p) lines.
Proof.
  revert p. induction lines as [|l rest IH]; intros p; simpl; [by eauto|].
  unfold advance at 2. destruct (isHeader l) eqn:Hl.
  - rewrite (part000_step_header _ _ Hl); simpl.
    apply (IH {| Part000.screens := _; Part000.currentScreen := _ |}).
  - destruct (Part000.currentScreen p) as [s|] eqn:Hc; simpl.
    + rewrite (part000_step_open _ _ _ Hc Hl); simpl.
      apply (IH (Part000.setCurrent p (Part000.update s l))).
    + rewrite (part000_step_closed _ _ Hc Hl); simpl.
      destruct (IH p) as [p' [Hrun Hst]].
      exists p'. by rewrite Hrun, Hst, Hc.
Qed.

Lemma part000_build b :
  build Part000.newScreen Part000.update b = Part000.screenOf b.
Proof.
  destruct b as [h body]. unfold build, Part000.screenOf; simpl.
  assert (∀ ty nm cs ts sc,
    foldl Part000.update
      {| Part000.type := ty; Part000.name := nm; Part000.components := cs;
         Part000.transitions := ts; Part000.sections := sc |} body
    = {| Part000.type := ty; Part000.name := nm;
         Part000.components := cs ++ concat (Part000.lineComponents <$> body);
         Part000.transitions := ts ++ concat (Part000.lineTransitions <$> body);
         Part000.sections := sc ++ concat (Part000.lineSections <$> body) |})
    as H.
  { induction body as [|l body IH]; intros ty nm cs ts sc; csimpl.
    - by rewrite !app_nil_r.
    - unfold Part000.update at 2; simpl. rewrite IH. by rewrite <- !app_assoc. }
  apply H.
Qed.

(** The loop of the second source file returns, and what it returns is the
    screens of the blocks of the document. *)
Lemma part000_parse_blocks text :
  Part000.parse text = Normal (Part000.screenOf <$> blocks (linesOf text)).
Proof.
  unfold Part000.parse.
  destruct (part000_loop (linesOf text) Part000.initial) as [p' [-> Hst]].
  simpl. f_equal.
  change (Part000.finish p')
    with (commit (Part000.screens p', Part000.currentScreen p')).
  rewrite Hst. simpl. rewrite advance_closed. simpl.
  apply list_fmap_ext. intros _ b _. apply part000_build.
Qed.

(** ** Lines of a text, blocks of a document *)

Lemma linesOf_app a b : linesOf (a ++ LF :: b) = linesOf a ++ linesOf b.
Proof. unfold linesOf. by rewrite split_app, fmap_app. Qed.

Lemma headers_app pre post : headers (pre ++ post) = headers pre ++ headers post.
Proof. apply List.filter_app. Qed.

Lemma headers_none pre :
  headers pre = [] ↔ Forall (λ l, isHeader l = false) pre.
Proof.
  unfold headers. induction pre as [|l pre IH]; simpl; [by split|].
  destruct (isHeader l) eqn:Hl.
  - split; [done|]. intros H. apply Forall_cons in H as [H _]. congruence.
  - rewrite IH. split; [by constructor|]. by intros [_ ?]%Forall_cons.
Qed.

Lemma bodyOf_app_header pre h post :
  isHeader h = true → bodyOf (pre ++ h :: post) = bodyOf pre.
Proof.
  intros Hh. induction pre as [|l pre IH]; simpl; [by rewrite Hh|].
  by rewrite IH.
Qed.

Lemma bodyOf_plain body : Forall (λ l, isHeader l = false) body → bodyOf body = body.
Proof. induction 1 as [|l body Hl _ IH]; simpl; [done|]. by rewrite Hl, IH. Qed.

(** The block of the header line [h]: the blocks of the headers before it
    come first, one each. *)
Lemma blocks_at pre h post :
  isHeader h = true →
  ∃ bs, blocks (pre ++ h :: post) = bs ++ (h, bodyOf post) :: blocks post
        ∧ length bs = length (headers pre).
Proof.
  intros Hh. unfold headers. induction pre as [|l pre [bs [IH Hlen]]]; simpl.
  - exists []. by rewrite Hh.
  - rewrite IH. destruct (isHeader l).
    + eexists (_ :: bs). split; [done|]. simpl. by rewrite Hlen.
    + by exists bs.
Qed.

Lemma blocks_length lines : length (blocks lines) = length (headers lines).
Proof. by rewrite <- blocks_headers, length_fmap. Qed.

(** ** Header lines and their names *)

Lemma isHeader_shape h :
  isHeader h = true ↔ ∃ m, h = 91 :: m ++ [93].
Proof.
  unfold isHeader, Str.endsWith. rewrite andb_true_iff, !startsWith_prefix.
  change (lit "[") with [91]. change (reverse (lit "]")) with [93]. split.
  - intros [[r ->] [r' Hr']]. change ([91] ++ r) with (91 :: r) in *.
    rewrite reverse_cons in Hr'.
    destruct (reverse r) as [|c r''] eqn:Hrev; [done|].
    injection Hr' as -> _.
    apply (f_equal reverse) in Hrev. rewrite reverse_involutive in Hrev.
    subst r. exists (reverse r''). by rewrite reverse_cons.
  - intros [m ->]. split; [by exists (m ++ [93])|].
    exists (reverse m ++ [91]). by rewrite reverse_cons, reverse_app.
Qed.

Lemma slice_inner c m d : Str.slice (c :: m ++ [d]) 1 (Some (-1)%Z) = m.
Proof.
  unfold Str.slice, Str.relIndex. simpl length. rewrite length_app. simpl length.
  replace (1 <? 0)%Z with false by done. replace (-1 <? 0)%Z with true by done.
  rewrite Z.min_l by lia. rewrite Z.max_l by lia.
  change (Z.to_nat 1) with 1%nat. simpl drop.
  replace (Z.to_nat _) with (length m) by lia.
  by rewrite drop_0, take_app_length.
Qed.

(** The name of a screen is empty for the header line [[]] and for no other. *)
Lemma header_name_empty h :
  isHeader h = true → Str.slice h 1 (Some (-1)%Z) = [] ↔ h = lit "[]".
Proof.
  intros [m ->]%isHeader_shape. rewrite slice_inner. split; [by intros ->|].
  intros [= H]. by destruct m as [|? [|??]].
Qed.

(** ** The screen of a header line, in both parsers *)

Lemma codets_screen_at text pre h post :
  linesOf text = pre ++ h :: post → isHeader h = true →
  ∃ screens, CodeTs.parse text = Normal screens
    ∧ length screens = length (headers (linesOf text))
    ∧ screens !! length (headers pre) = Some (CodeTs.screenOf (h, bodyOf post)).
Proof.
  intros Hl Hh. eexists. split; [apply codets_parse_blocks|].
  rewrite length_fmap, blocks_length. split; [done|].
  rewrite Hl. destruct (blocks_at pre h post Hh) as [bs [-> <-]].
  rewrite fmap_app, fmap_cons. rewrite <- (length_fmap CodeTs.screenOf bs).
  apply list_lookup_middle. done.
Qed.

Lemma part000_screen_at text pre h post :
  linesOf text = pre ++ h :: post → isHeader h = true →
  ∃ screens, Part000.parse text = Normal screens
    ∧ length screens = length (headers (linesOf text))
    ∧ screens !! length (headers pre) = Some (Part000.screenOf (h, bodyOf post)).
Proof.
  intros Hl Hh. eexists. split; [apply part000_parse_blocks|].
  rewrite length_fmap, blocks_length. split; [done|].
  rewrite Hl. destruct (blocks_at pre h post Hh) as [bs [-> <-]].
  rewrite fmap_app, fmap_cons. rewrite <- (length_fmap Part000.screenOf bs).
  apply list_lookup_middle. done.
Qed.

(** * The claims *)

(** C1, as stated, fails on [src/code.ts]: there the branch of the component
    prefixes stands before the branch of [=>] and takes the line, which gives
    the action [X => B] and no transition. *)
Lemma action_line_is_one_component_in_code_ts :
  CodeTs.parse (lit "[A]" ++ [LF] ++ lit "A X => B" ++ [LF])
  = Normal
      [{| CodeTs.type := CodeTs.screen;
          CodeTs.name := lit "A";
          CodeTs.requirements := Some CodeTs.noRequirements;
          CodeTs.components :=
            Some [{| CodeTs.Component.type := CodeTs.action;
                     CodeTs.Component.name := lit "X => B" |}];
          CodeTs.transitions := Some [] |}]
  ∧ ¬ (∃ scr t,
         CodeTs.parse (lit "[A]" ++ [LF] ++ lit "A X => B" ++ [LF])
         = Normal [scr]
         ∧ CodeTs.name scr = lit "A"
         ∧ CodeTs.components scr
           = Some [{| CodeTs.Component.type := CodeTs.action;
                      CodeTs.Component.name := lit "X" |}]
         ∧ CodeTs.transitions scr = Some [t]
         ∧ CodeTs.Transition.to t = lit "B").
Proof.
  assert (CodeTs.parse (lit "[A]" ++ [LF] ++ lit "A X => B" ++ [LF])
          = Normal [CodeTs.screenOf (lit "[A]", [lit "A X => B"; []])]) as Hrun
    by (vm_compute; reflexivity).
  split; [vm_compute; reflexivity|].
  intros (scr & t & Hp & _ & Hc & _).
  rewrite Hrun in Hp. injection Hp as <-. vm_compute in Hc. discriminate.
Qed.

(** C1, amended.  For the text [[A]], line feed, [A X => B], line feed, the
    parser of the second source file returns one screen named [A] with one
    component, the action [X], and one transition, from [X] to [B]; without
    the action line the screen has neither, so that the one line made both.
    The parser of [src/code.ts] returns one screen named [A] whose one
    component is the action [X => B] and which has no transition. *)
Theorem action_line_makes_component_and_transition :
  Part000.parse (lit "[A]" ++ [LF] ++ lit "A X => B" ++ [LF])
  = Normal
      [{| Part000.type := Part000.screen;
          Part000.name := lit "A";
          Part000.components :=
            [{| Part000.Component.type := Part000.action;
                Part000.Component.name := lit "X" |}];
          Part000.transitions :=
            [{| Part000.Transition.from := lit "X";
                Part000.Transition.to := lit "B" |}];
          Part000.sections := [] |}]
  ∧ Part000.parse (lit "[A]" ++ [LF])
    = Normal
        [{| Part000.type := Part000.screen;
            Part000.name := lit "A";
            Part000.components := [];
            Part000.transitions := [];
            Part000.sections := [] |}]
  ∧ CodeTs.parse (lit "[A]" ++ [LF] ++ lit "A X => B" ++ [LF])
    = Normal
        [{| CodeTs.type := CodeTs.screen;
            CodeTs.name := lit "A";
            CodeTs.requirements := Some CodeTs.noRequirements;
            CodeTs.components :=
              Some [{| CodeTs.Component.type := CodeTs.action;
                       CodeTs.Component.name := lit "X => B" |}];
            CodeTs.transitions := Some [] |}].
Proof. repeat split; vm_compute; reflexivity. Qed.

(** C6.  The screen of the nth header line of a document is at index n-1 of
    what [parse] returns, which has one screen for each header line; the
    components and the transitions of that screen are what the lines from
    that header up to the next one add, taken line after line. *)
Theorem screens_and_their_lists_follow_the_lines text pre h post :
  linesOf text = pre ++ h :: post → isHeader h = true →
  (∃ screens s,
      CodeTs.parse text = Normal screens
      ∧ length screens = length (headers (linesOf text))
      ∧ screens !! length (headers pre) = Some s
      ∧ CodeTs.name s = Str.slice h 1 (Some (-1)%Z)
      ∧ CodeTs.components s
        = Some (concat (CodeTs.lineComponents <$> bodyOf post))
      ∧ CodeTs.transitions s
        = Some (concat (CodeTs.lineTransitions <$> bodyOf post)))
  ∧ (∃ screens s,
      Part000.parse text = Normal screens
      ∧ length screens = length (headers (linesOf text))
      ∧ screens !! length (headers pre) = Some s
      ∧ Part000.name s = Str.slice h 1 (Some (-1)%Z)
      ∧ Part000.components s = concat (Part000.lineComponents <$> bodyOf post)
      ∧ Part000.transitions s = concat (Part000.lineTransitions <$> bodyOf post)).
Proof.
  intros Hl Hh. split.
  - destruct (codets_screen_at text pre h post Hl Hh) as [screens [Hp [Hn Hs]]].
    by exists screens, (CodeTs.screenOf (h, bodyOf post)).
  - destruct (part000_screen_at text pre h post Hl Hh) as [screens [Hp [Hn Hs]]].
    by exists screens, (Part000.screenOf (h, bodyOf post)).
Qed.

Lemma screens_and_their_lists_follow_the_lines_witness :
  let text := lit "[A]" ++ [LF] ++ lit "T one" ++ [LF] ++ lit "[B]" ++ [LF]
              ++ lit "A go" ++ [LF] ++ lit "B stop" in
  linesOf text = [lit "[A]"; lit "T one"] ++ lit "[B]" :: [lit "A go"; lit "B stop"]
  ∧ isHeader (lit "[B]") = true
  ∧ (∃ screens s,
      CodeTs.parse text = Normal screens
      ∧ length screens = length (headers (linesOf text))
      ∧ screens !! length (headers [lit "[A]"; lit "T one"]) = Some s
      ∧ CodeTs.name s = Str.slice (lit "[B]") 1 (Some (-1)%Z)
      ∧ CodeTs.components s
        = Some (concat (CodeTs.lineComponents <$> bodyOf [lit "A go"; lit "B stop"]))
      ∧ CodeTs.transitions s
        = Some (concat (CodeTs.lineTransitions <$> bodyOf [lit "A go"; lit "B stop"]))).
Proof.
  intros text. split; [reflexivity|]. split; [reflexivity|].
  apply (screens_and_their_lists_follow_the_lines text
           [lit "[A]"; lit "T one"] (lit "[B]") [lit "A go"; lit "B stop"]);
    reflexivity.
Defined.

(** C7.  Two header lines with one name give two screens: the screen of the
    first is at the index of its header, the screen of the second at the
    index of its own, which is greater; each holds what the lines of its own
    block add and nothing of the other block, and [parse] returns one screen
    for each header line. *)
Theorem same_name_twice_gives_two_screens text pre h mid post :
  linesOf text = pre ++ h :: mid ++ h :: post → isHeader h = true →
  (length (headers pre) < length (headers (pre ++ h :: mid)))%nat
  ∧ (∃ screens s1 s2,
      CodeTs.parse text = Normal screens
      ∧ length screens = length (headers (linesOf text))
      ∧ screens !! length (headers pre) = Some s1
      ∧ screens !! length (headers (pre ++ h :: mid)) = Some s2
      ∧ CodeTs.name s1 = Str.slice h 1 (Some (-1)%Z)
      ∧ CodeTs.name s2 = Str.slice h 1 (Some (-1)%Z)
      ∧ s1 = CodeTs.screenOf (h, bodyOf mid)
      ∧ s2 = CodeTs.screenOf (h, bodyOf post))
  ∧ (∃ screens s1 s2,
      Part000.parse text = Normal screens
      ∧ length screens = length (headers (linesOf text))
      ∧ screens !! length (headers pre) = Some s1
      ∧ screens !! length (headers (pre ++ h :: mid)) = Some s2
      ∧ Part000.name s1 = Str.slice h 1 (Some (-1)%Z)
      ∧ Part000.name s2 = Str.slice h 1 (Some (-1)%Z)
      ∧ s1 = Part000.screenOf (h, bodyOf mid)
      ∧ s2 = Part000.screenOf (h, bodyOf post)).
Proof.
  intros Hl Hh.
  assert (linesOf text = (pre ++ h :: mid) ++ h :: post) as Hl'
    by (by rewrite <- app_assoc).
  split; [|split].
  - rewrite headers_app, length_app. unfold headers at 3. simpl.
    rewrite Hh. simpl. lia.
  - destruct (codets_screen_at text pre h _ Hl Hh) as [screens [Hp [Hn Hs1]]].
    destruct (codets_screen_at text _ h post Hl' Hh) as [screens' [Hp' [_ Hs2]]].
    rewrite Hp in Hp'. injection Hp' as <-.
    rewrite (bodyOf_app_header mid h post Hh) in Hs1.
    by exists screens, (CodeTs.screenOf (h, bodyOf mid)),
      (CodeTs.screenOf (h, bodyOf post)).
  - destruct (part000_screen_at text pre h _ Hl Hh) as [screens [Hp [Hn Hs1]]].
    destruct (part000_screen_at text _ h post Hl' Hh) as [screens' [Hp' [_ Hs2]]].
    rewrite Hp in Hp'. injection Hp' as <-.
    rewrite (bodyOf_app_header mid h post Hh) in Hs1.
    by exists screens, (Part000.screenOf (h, bodyOf mid)),
      (Part000.screenOf (h, bodyOf post)).
Qed.

Lemma same_name_twice_gives_two_screens_witness :
  let text := lit "[A]" ++ [LF] ++ lit "T one" ++ [LF] ++ lit "[A]" ++ [LF]
              ++ lit "T two" in
  linesOf text = [] ++ lit "[A]" :: [lit "T one"] ++ lit "[A]" :: [lit "T two"]
  ∧ isHeader (lit "[A]") = true
  ∧ ∃ screens s1 s2,
      Part000.parse text = Normal screens
      ∧ length screens = length (headers (linesOf text))
      ∧ screens !! length (headers []) = Some s1
      ∧ screens !! length (headers ([] ++ lit "[A]" :: [lit "T one"])) = Some s2
      ∧ Part000.name s1 = Str.slice (lit "[A]") 1 (Some (-1)%Z)
      ∧ Part000.name s2 = Str.slice (lit "[A]") 1 (Some (-1)%Z)
      ∧ s1 = Part000.screenOf (lit "[A]", bodyOf [lit "T one"])
      ∧ s2 = Part000.screenOf (lit "[A]", bodyOf [lit "T two"]).
Proof.
  intros text. split; [reflexivity|]. split; [reflexivity|].
  apply (same_name_twice_gives_two_screens text [] (lit "[A]")
           [lit "T one"] [lit "T two"]); reflexivity.
Defined.

(** C8, as stated, fails: the header line [[]] opens a screen whose name is
    empty. *)
Lemma screen_name_can_be_empty :
  ¬ (∀ text screens,
       CodeTs.parse text = Normal screens →
       Forall (λ s, CodeTs.name s ≠ []) screens)
  ∧ ¬ (∀ text screens,
       Part000.parse text = Normal screens →
       Forall (λ s, Part000.name s ≠ []) screens).
Proof.
  split; intros H.
  - specialize (H (lit "[]") _ eq_refl). by apply Forall_cons in H as [H _].
  - specialize (H (lit "[]") _ eq_refl). by apply Forall_cons in H as [H _].
Qed.

(** C8, amended.  [parse] returns one screen for each header line, in the
    order of the document; the name of a screen is its header line, as
    trimmed, without its first and its last code unit, and it is empty for
    the header line [[]] and for no other. *)
Theorem screen_names_come_from_header_lines text :
  (∃ screens,
      CodeTs.parse text = Normal screens
      ∧ Forall2 (λ s h, CodeTs.name s = Str.slice h 1 (Some (-1)%Z)
                        ∧ (CodeTs.name s = [] ↔ h = lit "[]"))
          screens (headers (linesOf text)))
  ∧ (∃ screens,
      Part000.parse text = Normal screens
      ∧ Forall2 (λ s h, Part000.name s = Str.slice h 1 (Some (-1)%Z)
                        ∧ (Part000.name s = [] ↔ h = lit "[]"))
          screens (headers (linesOf text))).
Proof.
  assert (Forall (λ b : jsstring * list jsstring, isHeader b.1 = true)
            (blocks (linesOf text))) as Hb.
  { generalize (linesOf text). intros lines.
    induction lines as [|l rest IH]; simpl; [done|].
    destruct (isHeader l) eqn:Hl; [by constructor|done]. }
  rewrite <- blocks_headers. split.
  - eexists. split; [apply codets_parse_blocks|].
    apply Forall2_fmap, Forall2_same_length_lookup_2; [done|].
    intros i b b' Hi Hi'. rewrite Hi in Hi'. injection Hi' as <-.
    split; [done|]. apply header_name_empty.
    by eapply (Forall_lookup_1 _ _ _ _ Hb).
  - eexists. split; [apply part000_parse_blocks|].
    apply Forall2_fmap, Forall2_same_length_lookup_2; [done|].
    intros i b b' Hi Hi'. rewrite Hi in Hi'. injection Hi' as <-.
    split; [done|]. apply header_name_empty.
    by eapply (Forall_lookup_1 _ _ _ _ Hb).
Qed.

(** C10.  A text with no header line gives no screen, and the lines of such
    a text put before another text change nothing of what that text gives:
    what stands before the first header line is dropped. *)
Theorem lines_before_the_first_header_are_dropped t1 t2 :
  headers (linesOf t1) = [] →
  CodeTs.parse t1 = Normal []
  ∧ Part000.parse t1 = Normal []
  ∧ CodeTs.parse (t1 ++ LF :: t2) = CodeTs.parse t2
  ∧ Part000.parse (t1 ++ LF :: t2) = Part000.parse t2.
Proof.
  intros H. apply headers_none in H.
  rewrite !codets_parse_blocks, !part000_parse_blocks, linesOf_app.
  rewrite (blocks_skip _ _ H).
  pose proof (blocks_skip _ [] H) as H0. rewrite app_nil_r in H0.
  by rewrite H0.
Qed.

Lemma lines_before_the_first_header_are_dropped_witness :
  let t1 := lit "T title" ++ [LF] ++ lit "A go => B" ++ [LF] ++ lit "--"
            ++ [LF] ++ lit "// P: fast" ++ [LF] ++ lit "=> C" in
  let t2 := lit "[B]" ++ [LF] ++ lit "T two" in
  headers (linesOf t1) = []
  ∧ CodeTs.parse t1 = Normal []
  ∧ Part000.parse t1 = Normal []
  ∧ CodeTs.parse (t1 ++ LF :: t2) = CodeTs.parse t2
  ∧ Part000.parse (t1 ++ LF :: t2) = Part000.parse t2.
Proof.
  intros t1 t2. split; [reflexivity|].
  apply (lines_before_the_first_header_are_dropped t1 t2). reflexivity.
Defined.

(** ** The open screen stays complete in [src/code.ts] *)

Lemma codets_step_complete p line p' :
  (∀ s, CodeTs.currentScreen p = Some s → CodeTs.complete s) →
  CodeTs.step p line = Normal p' →
  ∀ s, CodeTs.currentScreen p' = Some s → CodeTs.complete s.
Proof.
  intros Hp. destruct (isHeader line) eqn:Hl.
  - rewrite (codets_step_header _ _ Hl). intros [= <-] s [= <-].
    apply codets_complete_new.
  - destruct (CodeTs.currentScreen p) as [s0|] eqn:Hc.
    + rewrite (codets_step_open _ _ _ Hc (Hp _ eq_refl) Hl).
      intros [= <-] s [= <-]. by apply codets_complete_update, Hp.
    + rewrite (codets_step_closed _ _ Hc Hl). intros [= <-] s Hs.
      by rewrite Hc in Hs.
Qed.

Lemma codets_loop_complete lines p p' :
  (∀ s, CodeTs.currentScreen p = Some s → CodeTs.complete s) →
  forOf CodeTs.step lines p = Normal p' →
  ∀ s, CodeTs.currentScreen p' = Some s → CodeTs.complete s.
Proof.
  revert p. induction lines as [|l rest IH]; intros p Hp; simpl.
  - by intros [= <-].
  - destruct (CodeTs.step p l) as [p1|e] eqn:Hstep; [|done]. simpl.
    apply IH. by eapply codets_step_complete.
Qed.

Lemma codets_initial_complete s :
  CodeTs.currentScreen CodeTs.initial = Some s → CodeTs.complete s.
Proof. done. Qed.

Lemma bodyOf_app_plain body rest :
  Forall (λ l, isHeader l = false) body → bodyOf (body ++ rest) = body ++ bodyOf rest.
Proof. induction 1 as [|l body Hl _ IH]; simpl; [done|]. by rewrite Hl, IH. Qed.



(** C2, as stated, fails on the second source file: there the line holds
    [=>], so that it adds to the screen the action [logged in}] and a
    transition from [logged in}] to [Home], which has no condition. *)
Lemma conditional_line_adds_a_component_in_the_second_file :
  Part000.parse (lit "[Login]" ++ [LF] ++ lit "={logged in}=>Home")
  = Normal
      [{| Part000.type := Part000.screen;
          Part000.name := lit "Login";
          Part000.components :=
            [{| Part000.Component.type := Part000.action;
                Part000.Component.name := lit "logged in}" |}];
          Part000.transitions :=
            [{| Part000.Transition.from := lit "logged in}";
                Part000.Transition.to := lit "Home" |}];
          Part000.sections := [] |}]
  ∧ ¬ (∃ scr,
         Part000.parse (lit "[Login]" ++ [LF] ++ lit "={logged in}=>Home")
         = Normal [scr]
         ∧ Part000.components scr = []).
Proof.
  assert (Part000.parse (lit "[Login]" ++ [LF] ++ lit "={logged in}=>Home")
          = Normal [Part000.screenOf (lit "[Login]", [lit "={logged in}=>Home"])])
    as Hrun by (vm_compute; reflexivity).
  split; [vm_compute; reflexivity|].
  intros (scr & Hp & Hc).
  rewrite Hrun in Hp. injection Hp as <-. vm_compute in Hc. discriminate.
Qed.

(** C2, amended.  In [src/code.ts], in a document where the line
    [={logged in}=>Home] stands in the screen of the header line [[Login]],
    right under the header or after other lines of the screen, the screen is
    named [Login]; its transitions are those of the lines before that line,
    then the transition with the condition [logged in] and the target
    [Home], then those of the lines after it; its components are those of
    the other lines alone. *)
Theorem conditional_line_gives_transition_only text pre body post :
  linesOf text
  = pre ++ lit "[Login]" :: body ++ lit "={logged in}=>Home" :: post →
  Forall (λ l, isHeader l = false) body →
  ∃ screens s,
    CodeTs.parse text = Normal screens
    ∧ screens !! length (headers pre) = Some s
    ∧ CodeTs.name s = lit "Login"
    ∧ CodeTs.transitions s
      = Some (concat (CodeTs.lineTransitions <$> body)
              ++ {| CodeTs.Transition.to := lit "Home";
                    CodeTs.Transition.condition := Some (lit "logged in") |}
                 :: concat (CodeTs.lineTransitions <$> bodyOf post))
    ∧ CodeTs.components s
      = Some (concat (CodeTs.lineComponents <$> body)
              ++ concat (CodeTs.lineComponents <$> bodyOf post)).
Proof.
  intros Hl Hbody.
  destruct (codets_screen_at text pre (lit "[Login]") _ Hl eq_refl)
    as [screens [Hp [_ Hs]]].
  eexists screens, _. split; [done|]. split; [exact Hs|].
  unfold CodeTs.screenOf. simpl.
  rewrite (bodyOf_app_plain _ _ Hbody).
  change (bodyOf (lit "={logged in}=>Home" :: post))
    with (lit "={logged in}=>Home" :: bodyOf post).
  rewrite !fmap_app, !concat_app, !fmap_cons, !concat_cons.
  repeat split; done.
Qed.

Lemma conditional_line_gives_transition_only_witness :
  let text := lit "[Login]" ++ [LF] ++ lit "T name" ++ [LF] ++ lit "=> Help"
              ++ [LF] ++ lit "  ={logged in}=>Home" ++ [LF] ++ lit "B ok" in
  linesOf text
  = [] ++ lit "[Login]" :: [lit "T name"; lit "=> Help"]
    ++ lit "={logged in}=>Home" :: [lit "B ok"]
  ∧ ∃ screens s,
    CodeTs.parse text = Normal screens
    ∧ screens !! length (headers []) = Some s
    ∧ CodeTs.name s = lit "Login"
    ∧ CodeTs.transitions s
      = Some (concat (CodeTs.lineTransitions <$> [lit "T name"; lit "=> Help"])
              ++ {| CodeTs.Transition.to := lit "Home";
                    CodeTs.Transition.condition := Some (lit "logged in") |}
                 :: concat (CodeTs.lineTransitions <$> bodyOf [lit "B ok"]))
    ∧ CodeTs.components s
      = Some (concat (CodeTs.lineComponents <$> [lit "T name"; lit "=> Help"])
              ++ concat (CodeTs.lineComponents <$> bodyOf [lit "B ok"])).
Proof.
  intros text. split; [reflexivity|].
  apply (conditional_line_gives_transition_only text []
           [lit "T name"; lit "=> Help"] [lit "B ok"]); [reflexivity|].
  repeat constructor.
Defined.

(** One round of the loop.  In a state the loop of [src/code.ts] reaches
    with a screen open, a line that starts with [=>] leaves the pushed
    screens, the name, the requirements and the components of the open
    screen as they are and appends to its transitions one transition: its
    target is the line without its first two code units, trimmed, and it has
    no condition. *)
Lemma codets_arrow_line_step lines p s line :
  forOf CodeTs.step lines CodeTs.initial = Normal p →
  CodeTs.currentScreen p = Some s →
  Str.startsWith (lit "=>") line = true →
  ∃ ts,
    CodeTs.transitions s = Some ts
    ∧ CodeTs.step p line
      = Normal
          {| CodeTs.screens := CodeTs.screens p;
             CodeTs.currentScreen :=
               Some {| CodeTs.type := CodeTs.type s;
                       CodeTs.name := CodeTs.name s;
                       CodeTs.requirements := CodeTs.requirements s;
                       CodeTs.components := CodeTs.components s;
                       CodeTs.transitions :=
                         Some (ts ++ [{| CodeTs.Transition.to :=
                                           Str.trim (Str.slice line 2 None);
                                         CodeTs.Transition.condition := None |}])
                    |} |}.
Proof.
  intros Hrun Hc Hline.
  destruct (codets_loop_complete lines _ p codets_initial_complete Hrun s Hc)
    as [_ [_ [ts Hts]]].
  exists ts. split; [done|].
  apply startsWith_prefix in Hline as [r ->].
  change (lit "=>" ++ r) with (61 :: 62 :: r).
  unfold CodeTs.step. rewrite Hc.
  replace (Str.eqb _ []) with false by done.
  replace (isHeader _) with false by done.
  replace (Str.startsWith (lit "//") _) with false by done.
  replace (CodeTs.isComponentLine _) with false by done.
  replace (Str.startsWith (lit "=>") _) with true by done.
  unfold CodeTs.pushTransition. by rewrite Hts.
Qed.

Lemma codets_arrow_line_step_example :
  let lines := [lit "[A]"; lit "T one"] in
  let p := {| CodeTs.screens := [];
              CodeTs.currentScreen :=
                Some (CodeTs.screenOf (lit "[A]", [lit "T one"])) |} in
  forOf CodeTs.step lines CodeTs.initial = Normal p
  ∧ Str.startsWith (lit "=>") (lit "=> Home ") = true
  ∧ ∃ ts,
    CodeTs.transitions (CodeTs.screenOf (lit "[A]", [lit "T one"])) = Some ts
    ∧ CodeTs.step p (lit "=> Home ")
      = Normal
          {| CodeTs.screens := [];
             CodeTs.currentScreen :=
               Some {| CodeTs.type := CodeTs.screen;
                       CodeTs.name := lit "A";
                       CodeTs.requirements := Some CodeTs.noRequirements;
                       CodeTs.components :=
                         Some [{| CodeTs.Component.type := CodeTs.text;
                                  CodeTs.Component.name := lit "one" |}];
                       CodeTs.transitions :=
                         Some (ts ++ [{| CodeTs.Transition.to := lit "Home";
                                         CodeTs.Transition.condition := None |}])
                    |} |}.
Proof.
  intros lines p. split; [reflexivity|]. split; [reflexivity|].
  apply (codets_arrow_line_step lines p
           (CodeTs.screenOf (lit "[A]", [lit "T one"])) (lit "=> Home "));
    reflexivity.
Defined.

Lemma codets_arrow_line_adds line :
  Str.startsWith (lit "=>") line = true →
  isHeader line = false
  ∧ CodeTs.lineTransitions line
    = [{| CodeTs.Transition.to := Str.trim (Str.slice line 2 None);
          CodeTs.Transition.condition := None |}]
  ∧ CodeTs.lineComponents line = [].
Proof.
  intros [r ->]%startsWith_prefix.
  change (lit "=>" ++ r) with (61 :: 62 :: r).
  unfold CodeTs.lineTransitions, CodeTs.lineComponents.
  replace (Str.eqb _ []) with false by done.
  replace (Str.startsWith (lit "//") _) with false by done.
  replace (CodeTs.isComponentLine _) with false by done.
  replace (Str.startsWith (lit "=>") _) with true by done.
  done.
Qed.

(** C5, as stated, fails on the second source file: there a line that
    starts with [=>] holds [=>], so that it adds to the screen a transition
    with the empty source label and an action with the empty name. *)
Lemma arrow_line_adds_a_component_in_the_second_file :
  Part000.parse (lit "[A]" ++ [LF] ++ lit "=> Home")
  = Normal
      [{| Part000.type := Part000.screen;
          Part000.name := lit "A";
          Part000.components :=
            [{| Part000.Component.type := Part000.action;
                Part000.Component.name := [] |}];
          Part000.transitions :=
            [{| Part000.Transition.from := [];
                Part000.Transition.to := lit "Home" |}];
          Part000.sections := [] |}]
  ∧ ¬ (∃ scr,
         Part000.parse (lit "[A]" ++ [LF] ++ lit "=> Home") = Normal [scr]
         ∧ Part000.components scr = []).
Proof.
  assert (Part000.parse (lit "[A]" ++ [LF] ++ lit "=> Home")
          = Normal [Part000.screenOf (lit "[A]", [lit "=> Home"])])
    as Hrun by (vm_compute; reflexivity).
  split; [vm_compute; reflexivity|].
  intros (scr & Hp & Hc).
  rewrite Hrun in Hp. injection Hp as <-. vm_compute in Hc. discriminate.
Qed.

(** C5, amended.  In [src/code.ts], for every line of a document that
    starts, once trimmed, with [=>] and stands in the screen of a header
    line, what [parse] returns for that screen has, as transitions, those of
    the lines of the screen before that line, then one transition for that
    line, with no condition and with the line without its first two code
    units, trimmed, as target, then those of the lines after it; and it has,
    as components, those of the other lines alone. *)
Theorem arrow_line_appends_one_transition text pre h body line post :
  linesOf text = pre ++ h :: body ++ line :: post →
  isHeader h = true →
  Forall (λ l, isHeader l = false) body →
  Str.startsWith (lit "=>") line = true →
  ∃ screens s,
    CodeTs.parse text = Normal screens
    ∧ screens !! length (headers pre) = Some s
    ∧ CodeTs.name s = Str.slice h 1 (Some (-1)%Z)
    ∧ CodeTs.transitions s
      = Some (concat (CodeTs.lineTransitions <$> body)
              ++ {| CodeTs.Transition.to := Str.trim (Str.slice line 2 None);
                    CodeTs.Transition.condition := None |}
                 :: concat (CodeTs.lineTransitions <$> bodyOf post))
    ∧ CodeTs.components s
      = Some (concat (CodeTs.lineComponents <$> body)
              ++ concat (CodeTs.lineComponents <$> bodyOf post)).
Proof.
  intros Hl Hh Hbody Hline.
  destruct (codets_arrow_line_adds line Hline) as (Hnh & Htr & Hco).
  destruct (codets_screen_at text pre h _ Hl Hh) as [screens [Hp [_ Hs]]].
  eexists screens, _. split; [done|]. split; [exact Hs|].
  unfold CodeTs.screenOf. simpl.
  rewrite (bodyOf_app_plain _ _ Hbody). simpl. rewrite Hnh.
  rewrite !fmap_app, !concat_app, !fmap_cons, !concat_cons, Htr, Hco.
  repeat split; done.
Qed.

Lemma arrow_line_appends_one_transition_witness :
  let text := lit "[A]" ++ [LF] ++ lit "T one" ++ [LF] ++ lit "  => Home  "
              ++ [LF] ++ lit "B two" ++ [LF] ++ lit "[B]" in
  linesOf text
  = [] ++ lit "[A]" :: [lit "T one"] ++ lit "=> Home" :: [lit "B two"; lit "[B]"]
  ∧ isHeader (lit "[A]") = true
  ∧ Str.startsWith (lit "=>") (lit "=> Home") = true
  ∧ ∃ screens s,
    CodeTs.parse text = Normal screens
    ∧ screens !! length (headers []) = Some s
    ∧ CodeTs.name s = lit "A"
    ∧ CodeTs.transitions s
      = Some (concat (CodeTs.lineTransitions <$> [lit "T one"])
              ++ {| CodeTs.Transition.to := lit "Home";
                    CodeTs.Transition.condition := None |}
                 :: concat (CodeTs.lineTransitions
                            <$> bodyOf [lit "B two"; lit "[B]"]))
    ∧ CodeTs.components s
      = Some (concat (CodeTs.lineComponents <$> [lit "T one"])
              ++ concat (CodeTs.lineComponents
                         <$> bodyOf [lit "B two"; lit "[B]"])).
Proof.
  intros text. split; [reflexivity|]. split; [reflexivity|].
  split; [reflexivity|].
  apply (arrow_line_appends_one_transition text [] (lit "[A]")
           [lit "T one"] (lit "=> Home") [lit "B two"; lit "[B]"]);
    try reflexivity.
  repeat constructor.
Defined.



(** ** Unrecognized lines, and the loops never throw *)

Lemma codets_unrecognized_skipped p line :
  CodeTs.unrecognized line = true → CodeTs.step p line = Normal p.
Proof.
  unfold CodeTs.unrecognized, CodeTs.step. rewrite !andb_true_iff, !negb_true_iff.
  by intros [[[[[-> ->] ->] ->] ->] ->].
Qed.

Lemma part000_unrecognized_skipped p line :
  Part000.unrecognized line = true → Part000.step p line = Normal p.
Proof.
  unfold Part000.unrecognized, Part000.step.
  rewrite !andb_true_iff, !negb_true_iff.
  by intros [[[[-> ->] ->] ->] ->].
Qed.

Lemma parse_returns text :
  (∃ screens, CodeTs.parse text = Normal screens)
  ∧ (∃ screens, Part000.parse text = Normal screens).
Proof.
  split; eexists; [apply codets_parse_blocks|apply part000_parse_blocks].
Qed.

(** In [src/code.ts] a line that holds [=>] but starts with none of the
    prefixes the loop knows is skipped. *)
Lemma codets_prose_with_arrow_skipped p :
  CodeTs.step p (lit "see => there") = Normal p.
Proof. by apply codets_unrecognized_skipped. Qed.

(** C3, where the code departs from it.  The line [see => there] starts with
    no action prefix, not with [=>] and not with [={]; it holds [=>].  The
    second parser reads it as a transition from [e] to [there] and adds the
    action [e] to the screen, where [src/code.ts] skips it; both go on to the
    next line. *)
Theorem prose_with_arrow_changes_the_screen :
  Str.startsWith (lit "A ") (lit "see => there") = false
  ∧ Str.startsWith (lit "=>") (lit "see => there") = false
  ∧ Str.startsWith (lit "={") (lit "see => there") = false
  ∧ Part000.parse (lit "[S]" ++ [LF] ++ lit "see => there" ++ [LF] ++ lit "T after")
    = Normal
        [{| Part000.type := Part000.screen;
            Part000.name := lit "S";
            Part000.components :=
              [{| Part000.Component.type := Part000.action;
                  Part000.Component.name := lit "e" |};
               {| Part000.Component.type := Part000.text;
                  Part000.Component.name := lit "after" |}];
            Part000.transitions :=
              [{| Part000.Transition.from := lit "e";
                  Part000.Transition.to := lit "there" |}];
            Part000.sections := [] |}]
  ∧ CodeTs.parse (lit "[S]" ++ [LF] ++ lit "see => there" ++ [LF] ++ lit "T after")
    = Normal
        [{| CodeTs.type := CodeTs.screen;
            CodeTs.name := lit "S";
            CodeTs.requirements := Some CodeTs.noRequirements;
            CodeTs.components :=
              Some [{| CodeTs.Component.type := CodeTs.text;
                       CodeTs.Component.name := lit "after" |}];
            CodeTs.transitions := Some [] |}].
Proof. repeat split; vm_compute; reflexivity. Qed.

(** ** The two passes of the renderers *)

Lemma nodeOfLast_cons x names nd nodes n :
  nodeOfLast (x :: names) (nd :: nodes) n
  = match nodeOfLast names nodes n with
    | Some y => Some y
    | None => if decide (x = n) then Some nd else None
    end.
Proof.
  unfold nodeOfLast. simpl.
  destruct (decide (x = n)); simpl; [|by destruct (last _)].
  by rewrite last_cons.
Qed.

(** [nodeOfLast] picks the node of the last screen of the name. *)
Lemma nodeOfLast_final pre n post nodes :
  length nodes = length (pre ++ n :: post) → n ∉ post →
  nodeOfLast (pre ++ n :: post) nodes n = nodes !! length pre.
Proof.
  revert nodes. induction pre as [|x pre IH]; intros [|nd nodes] Hlen Hn;
    try done; simpl in *.
  - rewrite nodeOfLast_cons. rewrite decide_True by done.
    assert (nodeOfLast post nodes n = None) as ->; [|done].
    clear Hlen. revert nodes. induction post as [|y post IHp]; intros [|nd' nodes];
      try done.
    apply not_elem_of_cons in Hn as [Hy Hn].
    rewrite nodeOfLast_cons, (IHp Hn). by rewrite decide_False.
  - rewrite nodeOfLast_cons, IH by (done || lia).
    destruct (nodes !! length pre) eqn:Hlk; [done|].
    apply lookup_ge_None in Hlk. rewrite length_app in Hlen. simpl in Hlen. lia.
Qed.

Lemma omap_option_list {A B} (g : A → option B) (l : list A) :
  omap g l = concat ((λ a, option_list (g a)) <$> l).
Proof.
  induction l as [|a l IH]; csimpl; [done|].
  rewrite <- IH. by destruct (g a).
Qed.

(** A loop whose body only adds connectors adds the connectors of its
    rounds, one round after the other. *)
Lemma forOf_connectors {A} (body : Figma.Host → A → completion Figma.Host)
    (f : A → list (nat * nat)) :
  (∀ h a h', body h a = Normal h' →
     Figma.nodes h' = Figma.nodes h
     ∧ ∃ cs, Figma.connectors h' = Figma.connectors h ++ cs
             ∧ Figma.ends <$> cs = f a) →
  ∀ xs h h', forOf body xs h = Normal h' →
    Figma.nodes h' = Figma.nodes h
    ∧ ∃ cs, Figma.connectors h' = Figma.connectors h ++ cs
            ∧ Figma.ends <$> cs = concat (f <$> xs).
Proof.
  intros Hbody xs. induction xs as [|a xs IH]; intros h h'; simpl.
  - intros [= <-]. split; [done|]. exists []. by rewrite app_nil_r.
  - destruct (body h a) as [h1|e] eqn:Hb; [|done]. simpl. intros Hrest.
    destruct (Hbody _ _ _ Hb) as [Hn1 [cs1 [Hc1 He1]]].
    destruct (IH _ _ Hrest) as [Hn2 [cs2 [Hc2 He2]]].
    split; [congruence|]. exists (cs1 ++ cs2).
    rewrite Hc2, Hc1, <- app_assoc, fmap_app, He1, He2. done.
Qed.

Lemma loadFontAsync_inv f h h' :
  Figma.loadFontAsync f h = Normal h' → h' = h.
Proof. unfold Figma.loadFontAsync. destruct (Figma.fontLoads h f); congruence. Qed.

(** *** [src/code.ts] *)

Lemma codets_createScreenNode_spec scr px py h node h' :
  CodeTs.createScreenNode scr px py h = Normal (node, h') →
  Figma.id node = Figma.created h
  ∧ Figma.nodes h' = Figma.nodes h ++ [node]
  ∧ Figma.connectors h' = Figma.connectors h
  ∧ (Figma.created h < Figma.created h')%nat.
Proof.
  unfold CodeTs.createScreenNode. simpl.
  destruct (Figma.loadFontAsync _ _) as [h2|e] eqn:Hf; [|done]. simpl.
  apply loadFontAsync_inv in Hf. subst h2. intros [= <- <-]. simpl.
  repeat split; lia.
Qed.

Lemma codets_place_spec screens i m h m' h' :
  CodeTs.place i screens m h = Normal (m', h') →
  ∃ new,
    Figma.nodes h' = Figma.nodes h ++ new
    ∧ length new = length screens
    ∧ Figma.connectors h' = Figma.connectors h
    ∧ (Figma.created h ≤ Figma.created h')%nat
    ∧ Forall (λ nd, (Figma.created h ≤ Figma.id nd < Figma.created h')%nat) new
    ∧ NoDup (Figma.id <$> new)
    ∧ ∀ n, m' !! n = match nodeOfLast (CodeTs.name <$> screens) new n with
                     | Some y => Some y
                     | None => m !! n
                     end.
Proof.
  revert i m h. induction screens as [|scr rest IH]; intros i m h; simpl.
  - intros [= <- <-]. exists []. rewrite app_nil_r.
    repeat split; try done. constructor.
  - destruct (CodeTs.createScreenNode _ _ _ _) as [[node h1]|e] eqn:Hc; [|done].
    simpl. intros Hrest.
    destruct (codets_createScreenNode_spec _ _ _ _ _ _ Hc) as (Hid & Hn1 & Hc1 & Hlt).
    destruct (IH _ _ _ Hrest) as (new & Hn & Hl & Hcs & Hle & Hids & Hnd & Hm).
    exists (node :: new). rewrite Hn, Hn1, <- app_assoc.
    refine (conj _ (conj _ (conj _ (conj _ (conj _ (conj _ _)))))).
    + done.
    + simpl. by rewrite Hl.
    + congruence.
    + lia.
    + constructor; [lia|].
      eapply Forall_impl; [exact Hids|]. simpl. intros nd ?. lia.
    + csimpl. constructor; [|done]. intros Hin.
      apply list_elem_of_fmap in Hin as [nd [Hidnd Hin]].
      rewrite Forall_forall in Hids. specialize (Hids _ Hin). lia.
    + intros n. csimpl. rewrite Hm, nodeOfLast_cons.
      destruct (nodeOfLast _ new n); [done|].
      destruct (decide (CodeTs.name scr = n)) as [->|Hne].
      * by rewrite lookup_insert_eq.
      * by rewrite lookup_insert_ne.
Qed.

Lemma codets_connect_spec m screens h h' :
  forOf (CodeTs.connectScreen m) screens h = Normal h' →
  Figma.nodes h' = Figma.nodes h
  ∧ ∃ cs, Figma.connectors h' = Figma.connectors h ++ cs
          ∧ Figma.ends <$> cs = CodeTs.connectorsOf (λ n, m !! n) screens.
Proof.
  apply forOf_connectors. clear. intros h scr h'. unfold CodeTs.connectScreen.
  destruct (m !! CodeTs.name scr) as [src|];
    [|intros [= <-]; split; [done|]; exists []; by rewrite app_nil_r].
  destruct (CodeTs.transitions scr) as [ts|];
    [|intros [= <-]; split; [done|]; exists []; by rewrite app_nil_r].
  rewrite omap_option_list. apply forOf_connectors. clear.
  intros h t h'. unfold CodeTs.connectTransition.
  destruct (m !! CodeTs.Transition.to t) as [tgt|]; simpl;
    [|intros [= <-]; split; [done|]; exists []; by rewrite app_nil_r].
  destruct (CodeTs.truthy _).
  - destruct (Figma.loadFontAsync _ _) as [h2|e] eqn:Hf; [|done]. simpl.
    apply loadFontAsync_inv in Hf. subst h2. intros [= <-]. simpl.
    split; [done|]. by eexists [_].
  - intros [= <-]. simpl. split; [done|]. by eexists [_].
Qed.

Lemma codets_connectorsOf_ext f g screens :
  (∀ n, f n = g n) → CodeTs.connectorsOf f screens = CodeTs.connectorsOf g screens.
Proof.
  intros H. unfold CodeTs.connectorsOf. f_equal. apply list_fmap_ext.
  intros _ scr _. rewrite H. destruct (g _), (CodeTs.transitions scr); try done.
  rewrite !omap_option_list. f_equal. apply list_fmap_ext.
  intros _ t _. by rewrite H.
Qed.

(** *** The second source file *)

Lemma part000_createScreenNode_spec scr px py h node h' :
  Part000.createScreenNode scr px py h = Normal (node, h') →
  Figma.id node = Figma.created h
  ∧ Figma.nodes h' = Figma.nodes h ++ [node]
  ∧ Figma.connectors h' = Figma.connectors h
  ∧ (Figma.created h < Figma.created h')%nat.
Proof.
  unfold Part000.createScreenNode. simpl.
  destruct (Figma.loadFontAsync _ _) as [h2|e] eqn:Hf; [|done]. simpl.
  apply loadFontAsync_inv in Hf. subst h2. intros [= <- <-]. simpl.
  repeat split; lia.
Qed.

Lemma part000_place_spec screens i m h m' h' :
  Part000.place i screens m h = Normal (m', h') →
  ∃ new,
    Figma.nodes h' = Figma.nodes h ++ new
    ∧ length new = length screens
    ∧ Figma.connectors h' = Figma.connectors h
    ∧ (Figma.created h ≤ Figma.created h')%nat
    ∧ Forall (λ nd, (Figma.created h ≤ Figma.id nd < Figma.created h')%nat) new
    ∧ NoDup (Figma.id <$> new)
    ∧ ∀ n, m' !! n = match nodeOfLast (Part000.name <$> screens) new n with
                     | Some y => Some y
                     | None => m !! n
                     end.
Proof.
  revert i m h. induction screens as [|scr rest IH]; intros i m h; simpl.
  - intros [= <- <-]. exists []. rewrite app_nil_r.
    repeat split; try done. constructor.
  - destruct (Part000.createScreenNode _ _ _ _) as [[node h1]|e] eqn:Hc; [|done].
    simpl. intros Hrest.
    destruct (part000_createScreenNode_spec _ _ _ _ _ _ Hc) as (Hid & Hn1 & Hc1 & Hlt).
    destruct (IH _ _ _ Hrest) as (new & Hn & Hl & Hcs & Hle & Hids & Hnd & Hm).
    exists (node :: new). rewrite Hn, Hn1, <- app_assoc.
    refine (conj _ (conj _ (conj _ (conj _ (conj _ (conj _ _)))))).
    + done.
    + simpl. by rewrite Hl.
    + congruence.
    + lia.
    + constructor; [lia|].
      eapply Forall_impl; [exact Hids|]. simpl. intros nd ?. lia.
    + csimpl. constructor; [|done]. intros Hin.
      apply list_elem_of_fmap in Hin as [nd [Hidnd Hin]].
      rewrite Forall_forall in Hids. specialize (Hids _ Hin). lia.
    + intros n. csimpl. rewrite Hm, nodeOfLast_cons.
      destruct (nodeOfLast _ new n); [done|].
      destruct (decide (Part000.name scr = n)) as [->|Hne].
      * by rewrite lookup_insert_eq.
      * by rewrite lookup_insert_ne.
Qed.

Lemma part000_connect_spec m screens h h' :
  forOf (Part000.connectScreen m) screens h = Normal h' →
  Figma.nodes h' = Figma.nodes h
  ∧ ∃ cs, Figma.connectors h' = Figma.connectors h ++ cs
          ∧ Figma.ends <$> cs = Part000.connectorsOf (λ n, m !! n) screens.
Proof.
  apply forOf_connectors. clear. intros h scr h'. unfold Part000.connectScreen.
  destruct (m !! Part000.name scr) as [src|];
    [|intros [= <-]; split; [done|]; exists []; by rewrite app_nil_r].
  rewrite omap_option_list. apply forOf_connectors. clear.
  intros h t h'. unfold Part000.connectTransition.
  destruct (m !! Part000.Transition.to t) as [tgt|]; simpl;
    [|intros [= <-]; split; [done|]; exists []; by rewrite app_nil_r].
  destruct (Figma.loadFontAsync _ _) as [h2|e] eqn:Hf; [|done]. simpl.
  apply loadFontAsync_inv in Hf. subst h2. intros [= <-]. simpl.
  split; [done|]. by eexists [_].
Qed.

Lemma part000_connectorsOf_ext f g screens :
  (∀ n, f n = g n) →
  Part000.connectorsOf f screens = Part000.connectorsOf g screens.
Proof.
  intros H. unfold Part000.connectorsOf. f_equal. apply list_fmap_ext.
  intros _ scr _. rewrite H. destruct (g _); [|done].
  rewrite !omap_option_list. f_equal. apply list_fmap_ext.
  intros _ t _. by rewrite H.
Qed.

(** What a run of [render] that returns has done, in [src/code.ts]. *)
Lemma codets_render_spec screens h h' :
  CodeTs.render screens h = Normal h' →
  ∃ new cs,
    Figma.nodes h' = Figma.nodes h ++ new
    ∧ length new = length screens
    ∧ NoDup (Figma.id <$> new)
    ∧ Figma.connectors h' = Figma.connectors h ++ cs
    ∧ Figma.ends <$> cs
      = CodeTs.connectorsOf (nodeOfLast (CodeTs.name <$> screens) new) screens.
Proof.
  unfold CodeTs.render.
  destruct (Figma.loadFontAsync _ h) as [h0|e] eqn:Hf; [|done]. simpl.
  apply loadFontAsync_inv in Hf. subst h0.
  destruct (CodeTs.place _ _ _ _) as [[m h1]|e] eqn:Hp; [|done]. simpl.
  intros Hc.
  destruct (codets_place_spec _ _ _ _ _ _ Hp) as (new & Hn & Hl & Hcs & _ & _ & Hnd & Hm).
  destruct (codets_connect_spec _ _ _ _ Hc) as (Hn2 & cs & Hcs2 & He).
  exists new, cs. rewrite Hn2, Hcs2, Hcs, He. repeat split; try done.
  apply codets_connectorsOf_ext. intros n. rewrite Hm.
  by destruct (nodeOfLast _ new n).
Qed.

(** What a run of [render] that returns has done, in the second file. *)
Lemma part000_render_spec screens h h' :
  Part000.render screens h = Normal h' →
  ∃ new cs,
    Figma.nodes h' = Figma.nodes h ++ new
    ∧ length new = length screens
    ∧ NoDup (Figma.id <$> new)
    ∧ Figma.connectors h' = Figma.connectors h ++ cs
    ∧ Figma.ends <$> cs
      = Part000.connectorsOf (nodeOfLast (Part000.name <$> screens) new) screens.
Proof.
  unfold Part000.render.
  destruct (Figma.loadFontAsync _ h) as [h0|e] eqn:Hf; [|done]. simpl.
  apply loadFontAsync_inv in Hf. subst h0.
  destruct (Part000.place _ _ _ _) as [[m h1]|e] eqn:Hp; [|done]. simpl.
  intros Hc.
  destruct (part000_place_spec _ _ _ _ _ _ Hp) as (new & Hn & Hl & Hcs & _ & _ & Hnd & Hm).
  destruct (part000_connect_spec _ _ _ _ Hc) as (Hn2 & cs & Hcs2 & He).
  exists new, cs. rewrite Hn2, Hcs2, Hcs, He. repeat split; try done.
  apply part000_connectorsOf_ext. intros n. rewrite Hm.
  by destruct (nodeOfLast _ new n).
Qed.

(** C9.  A run of [render] that returns has made one node for each screen,
    in the order of the screens and with ids that differ, and the connectors
    it has added are those of the transitions, screen after screen, with
    every name, of the source screen and of the target, resolved to the node
    made for the last screen that bears it; this holds for both renderers. *)
Theorem connectors_attach_to_the_last_screen_of_a_name
    (cs : list CodeTs.ScreenElement) (ps : list Part000.ScreenElement)
    (h1 h1' h2 h2' : Figma.Host) :
  CodeTs.render cs h1 = Normal h1' →
  Part000.render ps h2 = Normal h2' →
  (∃ new added,
      Figma.nodes h1' = Figma.nodes h1 ++ new
      ∧ length new = length cs
      ∧ NoDup (Figma.id <$> new)
      ∧ Figma.connectors h1' = Figma.connectors h1 ++ added
      ∧ Figma.ends <$> added
        = CodeTs.connectorsOf (nodeOfLast (CodeTs.name <$> cs) new) cs
      ∧ ∀ pre scr post,
          cs = pre ++ scr :: post →
          CodeTs.name scr ∉ CodeTs.name <$> post →
          nodeOfLast (CodeTs.name <$> cs) new (CodeTs.name scr)
          = new !! length pre)
  ∧ (∃ new added,
      Figma.nodes h2' = Figma.nodes h2 ++ new
      ∧ length new = length ps
      ∧ NoDup (Figma.id <$> new)
      ∧ Figma.connectors h2' = Figma.connectors h2 ++ added
      ∧ Figma.ends <$> added
        = Part000.connectorsOf (nodeOfLast (Part000.name <$> ps) new) ps
      ∧ ∀ pre scr post,
          ps = pre ++ scr :: post →
          Part000.name scr ∉ Part000.name <$> post →
          nodeOfLast (Part000.name <$> ps) new (Part000.name scr)
          = new !! length pre).
Proof.
  intros Hc Hp. split.
  - destruct (codets_render_spec _ _ _ Hc) as (new & added & Hn & Hl & Hnd & Hcs & He).
    exists new, added. repeat split; try done.
    intros pre scr post -> Hlast. rewrite fmap_app, fmap_cons.
    rewrite nodeOfLast_final; [by rewrite length_fmap| |done].
    by rewrite Hl, <- fmap_cons, <- fmap_app, length_fmap.
  - destruct (part000_render_spec _ _ _ Hp) as (new & added & Hn & Hl & Hnd & Hcs & He).
    exists new, added. repeat split; try done.
    intros pre scr post -> Hlast. rewrite fmap_app, fmap_cons.
    rewrite nodeOfLast_final; [by rewrite length_fmap| |done].
    by rewrite Hl, <- fmap_cons, <- fmap_app, length_fmap.
Qed.

Lemma connectors_attach_to_the_last_screen_of_a_name_witness :
  let h := {| Figma.fontLoads := λ _, true; Figma.created := 0;
              Figma.nodes := []; Figma.texts := []; Figma.connectors := [] |} in
  let cs := [CodeTs.screenOf (lit "[A]", [lit "=> B"]);
             CodeTs.screenOf (lit "[B]", [lit "=> A"]);
             CodeTs.screenOf (lit "[A]", [])] in
  let ps := [Part000.screenOf (lit "[A]", [lit "A go => B"]);
             Part000.screenOf (lit "[B]", [lit "A back => A"]);
             Part000.screenOf (lit "[A]", [])] in
  ∃ hc hp,
    CodeTs.render cs h = Normal hc
    ∧ Part000.render ps h = Normal hp
    ∧ Figma.id <$> Figma.nodes hc = [0; 1; 2]%nat
    ∧ Figma.ends <$> Figma.connectors hc = [(2, 1); (1, 2)]%nat
    ∧ Figma.id <$> Figma.nodes hp = [0; 2; 4]%nat
    ∧ Figma.ends <$> Figma.connectors hp = [(4, 2); (2, 4)]%nat
    ∧ ∃ new added,
        Figma.nodes hc = Figma.nodes h ++ new
        ∧ length new = length cs
        ∧ NoDup (Figma.id <$> new)
        ∧ Figma.connectors hc = Figma.connectors h ++ added
        ∧ Figma.ends <$> added
          = CodeTs.connectorsOf (nodeOfLast (CodeTs.name <$> cs) new) cs
        ∧ ∀ pre scr post,
            cs = pre ++ scr :: post →
            CodeTs.name scr ∉ CodeTs.name <$> post →
            nodeOfLast (CodeTs.name <$> cs) new (CodeTs.name scr)
            = new !! length pre.
Proof.
  intros h cs ps. eexists _, _.
  split; [vm_compute; reflexivity|]. split; [vm_compute; reflexivity|].
  split; [reflexivity|]. split; [reflexivity|].
  split; [reflexivity|]. split; [reflexivity|].
  eapply (connectors_attach_to_the_last_screen_of_a_name cs ps h _ h _);
    vm_compute; reflexivity.
Defined.

(** * More on the two parsers *)

Lemma forOf_app {S A} (body : S → A → completion S) xs ys st :
  forOf body (xs ++ ys) st = (st' ← forOf body xs st; forOf body ys st').
Proof.
  revert st. induction xs as [|x xs IH]; intros st; simpl; [done|].
  destruct (body st x); simpl; [apply IH|done].
Qed.

(** A line the body of the loop passes over can be taken out of the lines. *)
Lemma forOf_skip {S A} (body : S → A → completion S) xs u ys st :
  (∀ st', body st' u = Normal st') →
  forOf body (xs ++ u :: ys) st = forOf body (xs ++ ys) st.
Proof.
  intros Hu. rewrite !forOf_app. destruct (forOf body xs st); simpl; [|done].
  by rewrite Hu.
Qed.

Lemma codets_blank_skipped p : CodeTs.step p [] = Normal p.
Proof. done. Qed.

Lemma part000_blank_skipped p : Part000.step p [] = Normal p.
Proof. done. Qed.

(** X1.  In [src/code.ts], a line of the text that is blank once trimmed, or
    that no branch of the loop takes, can be taken out of the text, wherever
    it stands: between two lines, as the first line, as the last line, or as
    the only line of the text (what is left then is the empty text).  [parse]
    returns the same. *)
Theorem codets_skipped_line_can_be_removed t1 u t2 :
  LF ∉ u →
  Str.trim u = [] ∨ CodeTs.unrecognized (Str.trim u) = true →
  CodeTs.parse (t1 ++ LF :: u ++ LF :: t2) = CodeTs.parse (t1 ++ LF :: t2)
  ∧ CodeTs.parse (u ++ LF :: t2) = CodeTs.parse t2
  ∧ CodeTs.parse (t1 ++ LF :: u) = CodeTs.parse t1
  ∧ CodeTs.parse u = CodeTs.parse [].
Proof.
  intros Hu Hskip.
  assert (∀ p, CodeTs.step p (Str.trim u) = Normal p) as Hstep.
  { intros p. destruct Hskip as [->|H]; [done|].
    by apply codets_unrecognized_skipped. }
  assert (linesOf u = [Str.trim u]) as Hlu.
  { unfold linesOf. by rewrite (split_whole _ _ Hu). }
  unfold CodeTs.parse. rewrite !linesOf_app, Hlu.
  split; [|split; [|split]].
  - csimpl. by rewrite forOf_skip.
  - change ([Str.trim u] ++ linesOf t2) with ([] ++ Str.trim u :: linesOf t2).
    by rewrite (forOf_skip CodeTs.step [] _ _ _ Hstep).
  - rewrite (forOf_skip CodeTs.step _ _ [] _ Hstep). by rewrite app_nil_r.
  - simpl. by rewrite Hstep.
Qed.

Lemma codets_skipped_line_can_be_removed_witness :
  let u := lit "  see => there  " in
  (LF ∉ u)
  ∧ (Str.trim u = [] ∨ CodeTs.unrecognized (Str.trim u) = true)
  ∧ CodeTs.parse (lit "[A]" ++ LF :: u ++ LF :: lit "T x")
    = CodeTs.parse (lit "[A]" ++ LF :: lit "T x")
  ∧ CodeTs.parse (u ++ LF :: lit "[A]") = CodeTs.parse (lit "[A]")
  ∧ CodeTs.parse (lit "[A]" ++ LF :: u) = CodeTs.parse (lit "[A]")
  ∧ CodeTs.parse u = CodeTs.parse [].
Proof.
  intros u.
  assert (LF ∉ u) as H.
  { apply (bool_decide_unpack _). by vm_compute. }
  split; [exact H|]. split; [by right|].
  destruct (codets_skipped_line_can_be_removed (lit "[A]") u (lit "T x") H)
    as (Hmid & _); [by right|].
  destruct (codets_skipped_line_can_be_removed (lit "[A]") u (lit "[A]") H)
    as (_ & Hfirst & Hlast & Hone); [by right|].
  done.
Defined.

(** X2.  In the second source file, a line of the text that is blank once
    trimmed, or that no branch of the loop takes, can be taken out of the
    text, wherever it stands: between two lines, as the first line, as the last line, or as
    the only line of the text (what is left then is the empty text).  [parse]
    returns the same. *)
Theorem part000_skipped_line_can_be_removed t1 u t2 :
  LF ∉ u →
  Str.trim u = [] ∨ Part000.unrecognized (Str.trim u) = true →
  Part000.parse (t1 ++ LF :: u ++ LF :: t2) = Part000.parse (t1 ++ LF :: t2)
  ∧ Part000.parse (u ++ LF :: t2) = Part000.parse t2
  ∧ Part000.parse (t1 ++ LF :: u) = Part000.parse t1
  ∧ Part000.parse u = Part000.parse [].
Proof.
  intros Hu Hskip.
  assert (∀ p, Part000.step p (Str.trim u) = Normal p) as Hstep.
  { intros p. destruct Hskip as [->|H]; [done|].
    by apply part000_unrecognized_skipped. }
  assert (linesOf u = [Str.trim u]) as Hlu.
  { unfold linesOf. by rewrite (split_whole _ _ Hu). }
  unfold Part000.parse. rewrite !linesOf_app, Hlu.
  split; [|split; [|split]].
  - csimpl. by rewrite forOf_skip.
  - change ([Str.trim u] ++ linesOf t2) with ([] ++ Str.trim u :: linesOf t2).
    by rewrite (forOf_skip Part000.step [] _ _ _ Hstep).
  - rewrite (forOf_skip Part000.step _ _ [] _ Hstep). by rewrite app_nil_r.
  - simpl. by rewrite Hstep.
Qed.

Lemma part000_skipped_line_can_be_removed_witness :
  let u := lit " // P: fast " in
  (LF ∉ u)
  ∧ (Str.trim u = [] ∨ Part000.unrecognized (Str.trim u) = true)
  ∧ Part000.parse (lit "[A]" ++ LF :: u ++ LF :: lit "T x")
    = Part000.parse (lit "[A]" ++ LF :: lit "T x")
  ∧ Part000.parse (u ++ LF :: lit "[A]") = Part000.parse (lit "[A]")
  ∧ Part000.parse (lit "[A]" ++ LF :: u) = Part000.parse (lit "[A]")
  ∧ Part000.parse u = Part000.parse [].
Proof.
  intros u.
  assert (LF ∉ u) as H.
  { apply (bool_decide_unpack _). by vm_compute. }
  split; [exact H|]. split; [by right|].
  destruct (part000_skipped_line_can_be_removed (lit "[A]") u (lit "T x") H)
    as (Hmid & _); [by right|].
  destruct (part000_skipped_line_can_be_removed (lit "[A]") u (lit "[A]") H)
    as (_ & Hfirst & Hlast & Hone); [by right|].
  done.
Defined.

Lemma blocks_app_header pre h post :
  isHeader h = true →
  blocks (pre ++ h :: post) = blocks pre ++ blocks (h :: post).
Proof.
  intros Hh. induction pre as [|l pre IH]; simpl; [done|].
  rewrite IH. destruct (isHeader l); [|done].
  by rewrite (bodyOf_app_header pre h post Hh).
Qed.

(** X3.  When the first line of a text [t2] is a header line, parsing [t1],
    a line feed and [t2] gives the screens of [t1] followed by the screens
    of [t2]; this holds for both parsers. *)
Theorem parse_of_two_documents t1 t2 h rest :
  linesOf t2 = h :: rest → isHeader h = true →
  (∃ s1 s2, CodeTs.parse t1 = Normal s1 ∧ CodeTs.parse t2 = Normal s2
            ∧ CodeTs.parse (t1 ++ LF :: t2) = Normal (s1 ++ s2))
  ∧ (∃ s1 s2, Part000.parse t1 = Normal s1 ∧ Part000.parse t2 = Normal s2
              ∧ Part000.parse (t1 ++ LF :: t2) = Normal (s1 ++ s2)).
Proof.
  intros Hl Hh. split.
  - eexists _, _. rewrite !codets_parse_blocks, linesOf_app, Hl.
    rewrite (blocks_app_header _ _ _ Hh), fmap_app. done.
  - eexists _, _. rewrite !part000_parse_blocks, linesOf_app, Hl.
    rewrite (blocks_app_header _ _ _ Hh), fmap_app. done.
Qed.

Lemma parse_of_two_documents_witness :
  let t1 := lit "[A]" ++ LF :: lit "T one" in
  let t2 := lit " [B] " ++ LF :: lit "B two" in
  linesOf t2 = lit "[B]" :: [lit "B two"]
  ∧ isHeader (lit "[B]") = true
  ∧ ∃ s1 s2, CodeTs.parse t1 = Normal s1 ∧ CodeTs.parse t2 = Normal s2
             ∧ CodeTs.parse (t1 ++ LF :: t2) = Normal (s1 ++ s2).
Proof.
  intros t1 t2. split; [reflexivity|]. split; [reflexivity|].
  apply (parse_of_two_documents t1 t2 (lit "[B]") [lit "B two"]); reflexivity.
Defined.

(** X4.  In [src/code.ts], in a state the loop reaches, a requirement line
    whose category is none of [P], [S], [A], [U] changes nothing. *)
Theorem codets_unknown_category_is_ignored lines p line :
  forOf CodeTs.step lines CodeTs.initial = Normal p →
  Str.startsWith (lit "//") line = true →
  CodeTs.requirementCategory line ∉ Some <$> [lit "P"; lit "S"; lit "A"; lit "U"] →
  CodeTs.step p line = Normal p.
Proof.
  intros Hrun Hline Hcat.
  pose proof (codets_loop_complete lines _ p codets_initial_complete Hrun) as Hp.
  apply startsWith_prefix in Hline as [r ->].
  change (lit "//" ++ r) with (47 :: 47 :: r) in *.
  destruct (CodeTs.currentScreen p) as [s|] eqn:Hc;
    [|by apply codets_step_closed].
  destruct (Hp s eq_refl) as [[rq Hrq] _].
  revert Hcat. unfold CodeTs.step, CodeTs.requirementCategory. rewrite Hc, Hrq.
  replace (Str.eqb _ []) with false by done.
  replace (isHeader _) with false by done.
  replace (Str.startsWith (lit "//") _) with true by done.
  destruct (split_cons 58 (Str.slice (47 :: 47 :: r) 2 None)) as [ty [ds ->]].
  simpl. intros Hcat. rewrite !not_elem_of_cons in Hcat.
  destruct Hcat as (HP & HS & HA & HU & _).
  unfold CodeTs.setRequirement.
  destruct (Str.eqb (Str.trim ty) (lit "P")) eqn:E1;
    [apply eqb_eq in E1; by rewrite E1 in HP|].
  destruct (Str.eqb (Str.trim ty) (lit "S")) eqn:E2;
    [apply eqb_eq in E2; by rewrite E2 in HS|].
  destruct (Str.eqb (Str.trim ty) (lit "A")) eqn:E3;
    [apply eqb_eq in E3; by rewrite E3 in HA|].
  destruct (Str.eqb (Str.trim ty) (lit "U")) eqn:E4;
    [apply eqb_eq in E4; by rewrite E4 in HU|].
  destruct p as [scrs cur], s as [ty' nm rq' cp tr]; simpl in *.
  by subst.
Qed.

Lemma codets_unknown_category_is_ignored_witness :
  let p := {| CodeTs.screens := [];
              CodeTs.currentScreen := Some (CodeTs.screenOf (lit "[A]", [])) |} in
  forOf CodeTs.step [lit "[A]"] CodeTs.initial = Normal p
  ∧ Str.startsWith (lit "//") (lit "// X: later") = true
  ∧ CodeTs.step p (lit "// X: later") = Normal p.
Proof.
  intros p. split; [reflexivity|]. split; [reflexivity|].
  apply (codets_unknown_category_is_ignored [lit "[A]"] p (lit "// X: later"));
    [reflexivity|reflexivity|].
  apply (bool_decide_unpack _). by vm_compute.
Defined.

(** X5.  In [src/code.ts], in a state the loop reaches with a screen open, a
    line that starts with [T ], [E ], [B ] or [A ] adds one component, named
    by the line without its first two code units, and no transition, also
    when the line holds [=>]. *)
Theorem codets_component_line_adds_one_component lines p s line :
  forOf CodeTs.step lines CodeTs.initial = Normal p →
  CodeTs.currentScreen p = Some s →
  CodeTs.isComponentLine line = true →
  ∃ cs,
    CodeTs.components s = Some cs
    ∧ CodeTs.step p line
      = Normal
          {| CodeTs.screens := CodeTs.screens p;
             CodeTs.currentScreen :=
               Some {| CodeTs.type := CodeTs.type s;
                       CodeTs.name := CodeTs.name s;
                       CodeTs.requirements := CodeTs.requirements s;
                       CodeTs.components :=
                         Some (cs ++ [{| CodeTs.Component.type :=
                                           if charIs (head line) "T" then CodeTs.text
                                           else if charIs (head line) "E" then CodeTs.field
                                           else if charIs (head line) "B" then CodeTs.button
                                           else CodeTs.action;
                                         CodeTs.Component.name :=
                                           Str.slice line 2 None |}]);
                       CodeTs.transitions := CodeTs.transitions s |} |}.
Proof.
  intros Hrun Hc Hline.
  destruct (codets_loop_complete lines _ p codets_initial_complete Hrun s Hc)
    as [_ [[cs Hcs] _]].
  exists cs. split; [done|].
  assert (Str.eqb line [] = false ∧ isHeader line = false
          ∧ Str.startsWith (lit "//") line = false) as (H1 & H2 & H3).
  { revert Hline. unfold CodeTs.isComponentLine. rewrite !orb_true_iff.
    intros [[[H|H]|H]|H]; apply startsWith_prefix in H as [r ->]; done. }
  unfold CodeTs.step. rewrite Hc, H1, H2, H3, Hline.
  unfold CodeTs.pushComponent. by rewrite Hcs.
Qed.

Lemma codets_component_line_adds_one_component_witness :
  let p := {| CodeTs.screens := [];
              CodeTs.currentScreen := Some (CodeTs.screenOf (lit "[A]", [])) |} in
  forOf CodeTs.step [lit "[A]"] CodeTs.initial = Normal p
  ∧ CodeTs.isComponentLine (lit "A X => B") = true
  ∧ ∃ cs,
    CodeTs.components (CodeTs.screenOf (lit "[A]", [])) = Some cs
    ∧ CodeTs.step p (lit "A X => B")
      = Normal
          {| CodeTs.screens := [];
             CodeTs.currentScreen :=
               Some {| CodeTs.type := CodeTs.screen;
                       CodeTs.name := lit "A";
                       CodeTs.requirements := Some CodeTs.noRequirements;
                       CodeTs.components :=
                         Some (cs ++ [{| CodeTs.Component.type := CodeTs.action;
                                         CodeTs.Component.name := lit "X => B" |}]);
                       CodeTs.transitions := Some [] |} |}.
Proof.
  intros p. split; [reflexivity|]. split; [reflexivity|].
  apply (codets_component_line_adds_one_component [lit "[A]"] p
           (CodeTs.screenOf (lit "[A]", [])) (lit "A X => B")); reflexivity.
Defined.

(** X6.  In the second source file, with a screen open, every line that
    holds [=>], but a header line and [--], adds one transition and one
    action component with one and the same label: the first part of the
    line, trimmed, without its first two code units, whatever these are; the
    target is the second part, trimmed, and further parts are dropped. *)
Theorem part000_arrow_line_adds_transition_and_action p s line :
  Part000.currentScreen p = Some s →
  isHeader line = false →
  line ≠ lit "--" →
  Str.includes (lit "=>") line = true →
  ∃ a b rest,
    Str.split2 61 62 line = a :: b :: rest
    ∧ Part000.step p line
      = Normal
          {| Part000.screens := Part000.screens p;
             Part000.currentScreen :=
               Some {| Part000.type := Part000.type s;
                       Part000.name := Part000.name s;
                       Part000.components :=
                         Part000.components s
                         ++ [{| Part000.Component.type := Part000.action;
                                Part000.Component.name :=
                                  Str.slice (Str.trim a) 2 None |}];
                       Part000.transitions :=
                         Part000.transitions s
                         ++ [{| Part000.Transition.from :=
                                  Str.slice (Str.trim a) 2 None;
                                Part000.Transition.to := Str.trim b |}];
                       Part000.sections := Part000.sections s |} |}.
Proof.
  intros Hc Hh Hsec Hi.
  destruct (includes_split2 _ Hi) as [a [b [rest Hs]]].
  exists a, b, rest. split; [done|].
  unfold Part000.step. rewrite Hc, Hh, Hi, Hs.
  replace (Str.eqb line []) with false by (by destruct line).
  apply eqb_neq in Hsec. rewrite Hsec. done.
Qed.

Lemma part000_arrow_line_adds_transition_and_action_witness :
  let s := Part000.screenOf (lit "[A]", []) in
  let p := {| Part000.screens := []; Part000.currentScreen := Some s |} in
  isHeader (lit "T see => there => far") = false
  ∧ lit "T see => there => far" ≠ lit "--"
  ∧ Str.includes (lit "=>") (lit "T see => there => far") = true
  ∧ ∃ a b rest,
    Str.split2 61 62 (lit "T see => there => far") = a :: b :: rest
    ∧ Part000.step p (lit "T see => there => far")
      = Normal
          {| Part000.screens := [];
             Part000.currentScreen :=
               Some {| Part000.type := Part000.screen;
                       Part000.name := lit "A";
                       Part000.components :=
                         [{| Part000.Component.type := Part000.action;
                             Part000.Component.name :=
                               Str.slice (Str.trim a) 2 None |}];
                       Part000.transitions :=
                         [{| Part000.Transition.from :=
                               Str.slice (Str.trim a) 2 None;
                             Part000.Transition.to := Str.trim b |}];
                       Part000.sections := [] |} |}.
Proof.
  intros s p. split; [reflexivity|]. split; [discriminate|].
  split; [reflexivity|].
  apply (part000_arrow_line_adds_transition_and_action p s
           (lit "T see => there => far")); try reflexivity. discriminate.
Defined.

(** X7.  In the second source file, with a screen open, a line that starts
    with [T ], [B ], [A ] or [O ] and holds no [=>] adds one component and
    nothing else, and the letter the renderer prints for the kind of that
    component, a space and its name give the line back. *)
Theorem part000_component_line_round_trip p s line :
  Part000.currentScreen p = Some s →
  Part000.isComponentLine line = true →
  Str.includes (lit "=>") line = false →
  ∃ c,
    Part000.step p line = Normal (Part000.setCurrent p (Part000.pushComponent s c))
    ∧ Part000.getComponentPrefix (Part000.Component.type c) ++ lit " "
      ++ Part000.Component.name c = line.
Proof.
  intros Hc Hline Hi. unfold Part000.step. rewrite Hc, Hi, Hline.
  revert Hline. unfold Part000.isComponentLine. rewrite !orb_true_iff.
  intros [[[H|H]|H]|H]; apply startsWith_prefix in H as [r ->].
  all: eexists; split;
    [replace (Str.eqb _ []) with false by done;
     replace (isHeader _) with false by done;
     replace (Str.eqb _ (lit "--")) with false by done; reflexivity|].
  all: simpl; by rewrite slice_from_2.
Qed.

Lemma part000_component_line_round_trip_witness :
  let s := Part000.screenOf (lit "[A]", []) in
  let p := {| Part000.screens := []; Part000.currentScreen := Some s |} in
  Part000.isComponentLine (lit "O side note") = true
  ∧ Str.includes (lit "=>") (lit "O side note") = false
  ∧ ∃ c,
    Part000.step p (lit "O side note")
    = Normal (Part000.setCurrent p (Part000.pushComponent s c))
    ∧ Part000.getComponentPrefix (Part000.Component.type c) ++ lit " "
      ++ Part000.Component.name c = lit "O side note".
Proof.
  intros s p. split; [reflexivity|]. split; [reflexivity|].
  apply (part000_component_line_round_trip p s (lit "O side note"));
    reflexivity.
Defined.

(** ** The regular expression of the conditional transition *)

Lemma includes_cons p c s :
  Str.includes p (c :: s) = Str.startsWith p (c :: s) || Str.includes p s.
Proof. reflexivity. Qed.

Lemma includes_suffix p pre s :
  Str.includes p (pre ++ s) = false → Str.includes p s = false.
Proof.
  induction pre as [|c pre IH]; simpl; [done|].
  rewrite includes_cons. intros [_ H]%orb_false_iff. by apply IH.
Qed.

Lemma group1_unfold c r :
  Regex.group1 (c :: r)
  = match (if Regex.dot c then Regex.group1 r else None) with
    | Some (g1, g2) => Some (c :: g1, g2)
    | None =>
        if Str.startsWith (lit "}=>") (c :: r) then
          match Regex.takeDots (drop 3 (c :: r)) with
          | [] => None
          | g2 => Some ([], g2)
          end
        else None
    end.
Proof. reflexivity. Qed.

Lemma group1_none s : Str.includes (lit "}=>") s = false → Regex.group1 s = None.
Proof.
  induction s as [|c r IH]; [done|].
  rewrite includes_cons, group1_unfold. intros [Hp Hr]%orb_false_iff.
  rewrite (IH Hr), Hp. by destruct (Regex.dot c).
Qed.

Lemma takeDots_all t : Forall (λ c, Regex.dot c = true) t → Regex.takeDots t = t.
Proof. induction 1 as [|c t Hc _ IH]; simpl; [done|]. by rewrite Hc, IH. Qed.

Lemma takeDots_spec s :
  ∃ post, s = Regex.takeDots s ++ post
          ∧ Forall (λ c, Regex.dot c = true) (Regex.takeDots s)
          ∧ (post = [] ∨ ∃ c post', post = c :: post' ∧ Regex.dot c = false).
Proof.
  induction s as [|c r (post & Hs & Hd & Hp)]; simpl.
  - exists []. repeat split; [constructor|by left].
  - destruct (Regex.dot c) eqn:Hc.
    + exists post. simpl. rewrite <- Hs. repeat split; [by constructor|done].
    + exists (c :: r). repeat split; [constructor|right; eauto].
Qed.

Lemma group1_found c t :
  Forall (λ x, Regex.dot x = true) c →
  Forall (λ x, Regex.dot x = true) t →
  t ≠ [] →
  Str.includes (lit "}=>") t = false →
  Regex.group1 (c ++ lit "}=>" ++ t) = Some (c, t).
Proof.
  intros Hc Ht Hne Hi. induction Hc as [|x c Hx _ IH].
  - change ([] ++ lit "}=>" ++ t) with (125 :: 61 :: 62 :: t).
    rewrite group1_unfold.
    assert (Regex.group1 (61 :: 62 :: t) = None) as ->.
    { apply group1_none. by rewrite !includes_cons, Hi. }
    replace (Regex.dot 125) with true by done.
    replace (Str.startsWith (lit "}=>") _) with true by done.
    change (drop 3 (125 :: 61 :: 62 :: t)) with t.
    rewrite (takeDots_all _ Ht). by destruct t.
  - change ((x :: c) ++ lit "}=>" ++ t) with (x :: c ++ lit "}=>" ++ t).
    by rewrite group1_unfold, Hx, IH.
Qed.

Lemma exec_unfold s :
  Regex.exec s
  = match Regex.matchHere s with
    | Some m => Some m
    | None => match s with _ :: r => Regex.exec r | [] => None end
    end.
Proof. by destruct s. Qed.

Lemma exec_found c t :
  c ≠ [] →
  Forall (λ x, Regex.dot x = true) c →
  Forall (λ x, Regex.dot x = true) t →
  t ≠ [] →
  Str.includes (lit "}=>") t = false →
  Regex.exec (lit "={" ++ c ++ lit "}=>" ++ t) = Some (c, t).
Proof.
  intros Hc Hdc Ht Hne Hi. destruct c as [|x c]; [done|].
  apply Forall_cons in Hdc as [Hx Hdc].
  change (lit "={" ++ (x :: c) ++ lit "}=>" ++ t)
    with (61 :: 123 :: x :: c ++ lit "}=>" ++ t).
  rewrite exec_unfold. unfold Regex.matchHere.
  replace (Str.startsWith (lit "={") _) with true by done.
  change (drop 2 (61 :: 123 :: x :: c ++ lit "}=>" ++ t))
    with (x :: c ++ lit "}=>" ++ t).
  cbv iota beta. by rewrite Hx, (group1_found c t Hdc Ht Hne Hi).
Qed.

Lemma exec_none s : Str.includes (lit "}=>") s = false → Regex.exec s = None.
Proof.
  induction s as [|c r IH]; [done|]. intros Hi.
  assert (Regex.matchHere (c :: r) = None) as Hm.
  { unfold Regex.matchHere.
    destruct (Str.startsWith (lit "={") (c :: r)) eqn:Hp; [|done].
    apply startsWith_prefix in Hp as [rest Hp]. rewrite Hp in *.
    change (drop 2 (lit "={" ++ rest)) with rest.
    destruct rest as [|x rest]; [done|].
    rewrite (group1_none rest); [by destruct (Regex.dot x)|].
    by apply (includes_suffix _ (lit "={" ++ [x])). }
  rewrite exec_unfold, Hm. apply IH. rewrite includes_cons in Hi.
  by apply orb_false_iff in Hi as [_ ?].
Qed.

Lemma group1_sound s g1 g2 :
  Regex.group1 s = Some (g1, g2) →
  ∃ post,
    s = g1 ++ lit "}=>" ++ g2 ++ post
    ∧ g2 ≠ []
    ∧ Forall (λ c, Regex.dot c = true) g1
    ∧ Forall (λ c, Regex.dot c = true) g2
    ∧ (post = [] ∨ ∃ c post', post = c :: post' ∧ Regex.dot c = false).
Proof.
  revert g1. induction s as [|c r IH]; intros g1; [done|].
  rewrite group1_unfold.
  destruct (if Regex.dot c then Regex.group1 r else None) as [[h1 h2]|] eqn:Hmore.
  - intros [= <- <-]. destruct (Regex.dot c) eqn:Hc; [|done].
    destruct (IH _ Hmore) as (post & -> & Hne & Hd1 & Hd2 & Hp).
    exists post. repeat split; try done. by constructor.
  - destruct (Str.startsWith (lit "}=>") (c :: r)) eqn:Hp; [|done].
    apply startsWith_prefix in Hp as [rest Hp]. rewrite Hp.
    change (drop 3 (lit "}=>" ++ rest)) with rest.
    destruct (takeDots_spec rest) as (post & Hrest & Hd & Hpost).
    destruct (Regex.takeDots rest) as [|x g] eqn:Hg; [done|].
    intros [= <- <-]. exists post. rewrite Hrest at 1.
    repeat split; done.
Qed.

(** X8.  What [line.match(/={(.+)}=>(.+)/)] returns is a piece of the line:
    [={], the first group, [}=>] and the second group follow one another in
    the line; both groups are non-empty and hold no line terminator, and the
    second group runs to the end of the line or to a line terminator. *)
Theorem conditional_match_is_a_piece_of_the_line s g1 g2 :
  Regex.exec s = Some (g1, g2) →
  ∃ pre post,
    s = pre ++ lit "={" ++ g1 ++ lit "}=>" ++ g2 ++ post
    ∧ g1 ≠ [] ∧ g2 ≠ []
    ∧ Forall (λ c, Str.isLineTerminator c = false) g1
    ∧ Forall (λ c, Str.isLineTerminator c = false) g2
    ∧ (post = [] ∨ ∃ c post', post = c :: post' ∧ Str.isLineTerminator c = true).
Proof.
  assert (∀ c, Regex.dot c = true ↔ Str.isLineTerminator c = false) as Hdot.
  { intros c. unfold Regex.dot. by destruct (Str.isLineTerminator c). }
  assert (∀ c, Regex.dot c = false ↔ Str.isLineTerminator c = true) as Hndot.
  { intros c. unfold Regex.dot. by destruct (Str.isLineTerminator c). }
  induction s as [|c r IH]; [done|]. rewrite exec_unfold.
  destruct (Regex.matchHere (c :: r)) as [m|] eqn:Hm.
  - intros [= ->]. revert Hm. unfold Regex.matchHere.
    destruct (Str.startsWith (lit "={") (c :: r)) eqn:Hp; [|done].
    apply startsWith_prefix in Hp as [rest ->].
    change (drop 2 (lit "={" ++ rest)) with rest.
    destruct rest as [|x rest]; [done|].
    destruct (Regex.dot x) eqn:Hx; [|done].
    destruct (Regex.group1 rest) as [[h1 h2]|] eqn:Hg; [|done].
    intros [= <- <-].
    destruct (group1_sound _ _ _ Hg) as (post & -> & Hne & Hd1 & Hd2 & Hpost).
    exists [], post. repeat split; try done.
    + constructor; [by apply Hdot|].
      eapply Forall_impl; [exact Hd1|]. intros ?. apply Hdot.
    + eapply Forall_impl; [exact Hd2|]. intros ?. apply Hdot.
    + destruct Hpost as [->|(y & post' & -> & Hy)]; [by left|].
      right. exists y, post'. split; [done|]. by apply Hndot.
  - intros Hr. destruct (IH Hr) as (pre & post & -> & H).
    by exists (c :: pre), post.
Qed.

Lemma conditional_match_is_a_piece_of_the_line_witness :
  Regex.exec (lit "x ={a}=>b}=>c" ++ [13] ++ lit "d") = Some (lit "a}=>b", lit "c")
  ∧ ∃ pre post,
    lit "x ={a}=>b}=>c" ++ [13] ++ lit "d"
    = pre ++ lit "={" ++ lit "a}=>b" ++ lit "}=>" ++ lit "c" ++ post
    ∧ lit "a}=>b" ≠ [] ∧ lit "c" ≠ []
    ∧ Forall (λ c, Str.isLineTerminator c = false) (lit "a}=>b")
    ∧ Forall (λ c, Str.isLineTerminator c = false) (lit "c")
    ∧ (post = [] ∨ ∃ c post', post = c :: post' ∧ Str.isLineTerminator c = true).
Proof.
  split; [reflexivity|].
  apply (conditional_match_is_a_piece_of_the_line
           (lit "x ={a}=>b}=>c" ++ [13] ++ lit "d") (lit "a}=>b") (lit "c")).
  reflexivity.
Defined.

(** X9.  In [src/code.ts], in a state the loop reaches with a screen open,
    the line [={c}=>t], where [c] and [t] are non-empty and hold no line
    terminator and [t] holds no [}=>], adds one transition, with the
    condition [c] trimmed and the target [t] trimmed, and nothing else. *)
Theorem codets_conditional_line_reads_back lines p s c t :
  forOf CodeTs.step lines CodeTs.initial = Normal p →
  CodeTs.currentScreen p = Some s →
  c ≠ [] → t ≠ [] →
  Forall (λ x, Str.isLineTerminator x = false) c →
  Forall (λ x, Str.isLineTerminator x = false) t →
  Str.includes (lit "}=>") t = false →
  ∃ ts,
    CodeTs.transitions s = Some ts
    ∧ CodeTs.step p (lit "={" ++ c ++ lit "}=>" ++ t)
      = Normal
          {| CodeTs.screens := CodeTs.screens p;
             CodeTs.currentScreen :=
               Some {| CodeTs.type := CodeTs.type s;
                       CodeTs.name := CodeTs.name s;
                       CodeTs.requirements := CodeTs.requirements s;
                       CodeTs.components := CodeTs.components s;
                       CodeTs.transitions :=
                         Some (ts ++ [{| CodeTs.Transition.to := Str.trim t;
                                         CodeTs.Transition.condition :=
                                           Some (Str.trim c) |}]) |} |}.
Proof.
  intros Hrun Hc Hcne Htne Hdc Hdt Hi.
  destruct (codets_loop_complete lines _ p codets_initial_complete Hrun s Hc)
    as [_ [_ [ts Hts]]].
  exists ts. split; [done|].
  assert (∀ l, Forall (λ x, Str.isLineTerminator x = false) l →
               Forall (λ x, Regex.dot x = true) l) as Hdot.
  { intros l Hl. eapply Forall_impl; [exact Hl|].
    intros x Hx. unfold Regex.dot. by rewrite Hx. }
  unfold CodeTs.step.
  rewrite (exec_found c t Hcne (Hdot _ Hdc) (Hdot _ Hdt) Htne Hi), Hc.
  change (lit "={" ++ c ++ lit "}=>" ++ t) with (61 :: 123 :: c ++ lit "}=>" ++ t).
  replace (Str.eqb _ []) with false by done.
  replace (isHeader _) with false by done.
  replace (Str.startsWith (lit "//") _) with false by done.
  replace (CodeTs.isComponentLine _) with false by done.
  replace (Str.startsWith (lit "=>") _) with false by done.
  replace (Str.startsWith (lit "={") _) with true by done.
  unfold CodeTs.pushTransition. by rewrite Hts.
Qed.

Lemma codets_conditional_line_reads_back_witness :
  let s := CodeTs.screenOf (lit "[Cart]", []) in
  let p := {| CodeTs.screens := []; CodeTs.currentScreen := Some s |} in
  forOf CodeTs.step [lit "[Cart]"] CodeTs.initial = Normal p
  ∧ Str.includes (lit "}=>") (lit " Pay") = false
  ∧ ∃ ts,
    CodeTs.transitions s = Some ts
    ∧ CodeTs.step p (lit "={" ++ lit " cart {full} " ++ lit "}=>" ++ lit " Pay")
      = Normal
          {| CodeTs.screens := [];
             CodeTs.currentScreen :=
               Some {| CodeTs.type := CodeTs.screen;
                       CodeTs.name := lit "Cart";
                       CodeTs.requirements := Some CodeTs.noRequirements;
                       CodeTs.components := Some [];
                       CodeTs.transitions :=
                         Some (ts ++ [{| CodeTs.Transition.to := lit "Pay";
                                         CodeTs.Transition.condition :=
                                           Some (lit "cart {full}") |}]) |} |}.
Proof.
  intros s p. split; [reflexivity|]. split; [reflexivity|].
  apply (codets_conditional_line_reads_back [lit "[Cart]"] p s
           (lit " cart {full} ") (lit " Pay")); try reflexivity; try discriminate.
  - repeat constructor.
  - repeat constructor.
Defined.

(** X10.  In [src/code.ts] a line that starts with [={] and holds no [}=>]
    changes nothing, in whatever state: the pattern does not match and the
    line is passed over. *)
Theorem codets_unclosed_condition_is_ignored p line :
  Str.startsWith (lit "={") line = true →
  Str.includes (lit "}=>") line = false →
  CodeTs.step p line = Normal p.
Proof.
  intros Hline Hi. unfold CodeTs.step. rewrite (exec_none _ Hi), Hline.
  apply startsWith_prefix in Hline as [r ->].
  change (lit "={" ++ r) with (61 :: 123 :: r).
  replace (Str.eqb _ []) with false by done.
  replace (isHeader _) with false by done.
  replace (Str.startsWith (lit "//") _) with false by done.
  replace (CodeTs.isComponentLine _) with false by done.
  replace (Str.startsWith (lit "=>") _) with false by done.
  done.
Qed.

Lemma codets_unclosed_condition_is_ignored_witness :
  let p := {| CodeTs.screens := [];
              CodeTs.currentScreen := Some (CodeTs.screenOf (lit "[A]", [])) |} in
  Str.startsWith (lit "={") (lit "={logged in} => Home") = true
  ∧ Str.includes (lit "}=>") (lit "={logged in} => Home") = false
  ∧ CodeTs.step p (lit "={logged in} => Home") = Normal p.
Proof.
  intros p. split; [reflexivity|]. split; [reflexivity|].
  apply (codets_unclosed_condition_is_ignored p
           (lit "={logged in} => Home")); reflexivity.
Defined.

(** * More on the two renderers *)

(** A loop over a host: with [bad] the rounds that are rejected and the
    others returning, the loop is rejected when a round is bad and returns
    otherwise; [inv] is what the rounds keep. *)
Lemma forOf_rejected {A} (body : Figma.Host → A → completion Figma.Host)
    (bad : A → bool) (inv : Figma.Host → Prop) :
  (∀ h a, inv h →
     if bad a then body h a = Throw Rejected
     else ∃ h', body h a = Normal h' ∧ inv h') →
  ∀ xs h, inv h →
    if existsb bad xs then forOf body xs h = Throw Rejected
    else ∃ h', forOf body xs h = Normal h' ∧ inv h'.
Proof.
  intros Hbody xs. induction xs as [|a xs IH]; intros h Hinv; simpl; [by eauto|].
  specialize (Hbody h a Hinv). destruct (bad a); simpl.
  - by rewrite Hbody.
  - destruct Hbody as (h1 & -> & Hinv1). simpl. by apply IH.
Qed.

Lemma forOf_rejected_in {A} (body : Figma.Host → A → completion Figma.Host)
    (bad : A → bool) (inv : Figma.Host → Prop) xs :
  (∀ h a, a ∈ xs → inv h →
     if bad a then body h a = Throw Rejected
     else ∃ h', body h a = Normal h' ∧ inv h') →
  ∀ h, inv h →
    if existsb bad xs then forOf body xs h = Throw Rejected
    else ∃ h', forOf body xs h = Normal h' ∧ inv h'.
Proof.
  induction xs as [|a xs IH]; intros Hbody h Hinv; simpl; [by eauto|].
  pose proof (Hbody h a ltac:(by left) Hinv) as Ha. destruct (bad a); simpl.
  - by rewrite Ha.
  - destruct Ha as (h1 & -> & Hinv1). simpl. apply IH; [|done].
    intros h0 b Hb. apply Hbody. by right.
Qed.

Lemma nodeOfLast_is_Some names nodes n :
  length nodes = length names →
  is_Some (nodeOfLast names nodes n) ↔ n ∈ names.
Proof.
  revert nodes. induction names as [|x names IH]; intros [|nd nodes] Hlen;
    try done.
  - split; [by intros [? ?]|by intros ?%elem_of_nil].
  - rewrite nodeOfLast_cons, elem_of_cons.
    specialize (IH nodes ltac:(simpl in Hlen; lia)).
    destruct (nodeOfLast names nodes n) as [y|].
    + split; [intros _; right; apply IH; by eexists|by eexists].
    + destruct (decide (x = n)) as [->|Hne].
      * split; [by left|by eexists].
      * split; [by intros [? ?]|].
        intros [?|Hin]; [done|]. apply IH in Hin. by destruct Hin.
Qed.

(** *** Where the fonts decide *)

Lemma part000_place_returns screens i m h :
  Figma.fontLoads h Figma.Inter_Medium = true →
  ∃ m' h', Part000.place i screens m h = Normal (m', h')
           ∧ Figma.fontLoads h' = Figma.fontLoads h.
Proof.
  revert i m h. induction screens as [|scr rest IH]; intros i m h Hf; simpl;
    [by eauto|].
  unfold Part000.createScreenNode, Figma.loadFontAsync. simpl. rewrite Hf. simpl.
  match goal with
  | |- ∃ m' h', ?pl _ _ ?m1 ?h1 = _ ∧ _ =>
      destruct (IH (S i) m1 h1 Hf) as (m' & h' & Hp & Hf')
  end.
  by exists m', h'.
Qed.

Lemma codets_place_returns screens i m h :
  Figma.fontLoads h Figma.Inter_Medium = true →
  ∃ m' h', CodeTs.place i screens m h = Normal (m', h')
           ∧ Figma.fontLoads h' = Figma.fontLoads h.
Proof.
  revert i m h. induction screens as [|scr rest IH]; intros i m h Hf; simpl;
    [by eauto|].
  unfold CodeTs.createScreenNode, Figma.loadFontAsync. simpl. rewrite Hf. simpl.
  match goal with
  | |- ∃ m' h', ?pl _ _ ?m1 ?h1 = _ ∧ _ =>
      destruct (IH (S i) m1 h1 Hf) as (m' & h' & Hp & Hf')
  end.
  by exists m', h'.
Qed.

Lemma forOf_returns {A} (body : Figma.Host → A → completion Figma.Host)
    (inv : Figma.Host → Prop) :
  (∀ h a, inv h → ∃ h', body h a = Normal h' ∧ inv h') →
  ∀ xs h, inv h → ∃ h', forOf body xs h = Normal h' ∧ inv h'.
Proof.
  intros Hbody xs. induction xs as [|a xs IH]; intros h Hinv; simpl; [by eauto|].
  destruct (Hbody h a Hinv) as (h1 & -> & Hinv1). simpl. by apply IH.
Qed.

Lemma part000_connect_returns m screens h :
  Figma.fontLoads h Figma.Inter_Medium = true →
  ∃ h', forOf (Part000.connectScreen m) screens h = Normal h'
        ∧ Figma.fontLoads h' Figma.Inter_Medium = true.
Proof.
  apply (forOf_returns _ (λ h, Figma.fontLoads h Figma.Inter_Medium = true)).
  clear. intros h scr Hinv. unfold Part000.connectScreen.
  destruct (m !! Part000.name scr) as [src|]; [|by eauto].
  revert Hinv.
  apply (forOf_returns _ (λ h, Figma.fontLoads h Figma.Inter_Medium = true)).
  clear. intros h t Hinv. unfold Part000.connectTransition.
  destruct (m !! Part000.Transition.to t) as [tgt|]; [|by eauto]. simpl.
  unfold Figma.loadFontAsync. simpl. rewrite Hinv. simpl. by eauto.
Qed.

Lemma part000_render_outcome ps h :
  if Figma.fontLoads h Figma.Inter_Medium
  then ∃ h', Part000.render ps h = Normal h'
  else Part000.render ps h = Throw Rejected.
Proof.
  unfold Part000.render.
  destruct (Figma.fontLoads h Figma.Inter_Medium) eqn:Hf;
    [|unfold Figma.loadFontAsync; by rewrite Hf].
  unfold Figma.loadFontAsync at 1. rewrite Hf. simpl.
  destruct (part000_place_returns ps 0 ∅ h Hf) as (m & h1 & -> & Hf1). simpl.
  rewrite <- Hf1 in Hf.
  destruct (part000_connect_returns m ps h1 Hf) as (h' & -> & _). by eauto.
Qed.

(** X11.  The second renderer returns when the font Inter Medium loads, for
    whatever screens, and is rejected when it does not. *)
Theorem part000_render_needs_one_font ps h :
  if Figma.fontLoads h Figma.Inter_Medium
  then ∃ h', Part000.render ps h = Normal h'
  else Part000.render ps h = Throw Rejected.
Proof. apply part000_render_outcome. Qed.

Lemma existsb_ext_in {A} (f g : A → bool) (l : list A) :
  (∀ x, x ∈ l → f x = g x) → existsb f l = existsb g l.
Proof.
  induction l as [|a l IH]; intros H; simpl; [done|].
  rewrite (H a), IH; [done| |by left]. intros x Hx. apply H. by right.
Qed.

Lemma existsb_andb_r {A} (f : A → bool) (b : bool) (l : list A) :
  existsb (λ x, f x && b) l = existsb f l && b.
Proof.
  induction l as [|a l IH]; simpl; [done|]. rewrite IH.
  by destruct (f a), b, (existsb f l).
Qed.

(** The inner loop of [src/code.ts]: rejected at the first transition that
    needs a label when Space Mono does not load. *)
Lemma codets_connectTransitions m src ts h :
  let bad t := bool_decide (is_Some (m !! CodeTs.Transition.to t))
               && CodeTs.truthy (CodeTs.Transition.condition t)
               && negb (Figma.fontLoads h Figma.SpaceMono_Regular) in
  if existsb bad ts
  then forOf (CodeTs.connectTransition m src) ts h = Throw Rejected
  else ∃ h', forOf (CodeTs.connectTransition m src) ts h = Normal h'
             ∧ Figma.fontLoads h' = Figma.fontLoads h.
Proof.
  intros bad.
  apply (forOf_rejected _ bad (λ h', Figma.fontLoads h' = Figma.fontLoads h));
    [|done].
  clear ts. intros h0 t Hinv. unfold bad, CodeTs.connectTransition.
  destruct (m !! CodeTs.Transition.to t) as [tgt|]; simpl; [|by eauto].
  destruct (CodeTs.truthy _); simpl; [|by eauto].
  unfold Figma.loadFontAsync. simpl. rewrite Hinv.
  destruct (Figma.fontLoads h Figma.SpaceMono_Regular); simpl; by eauto.
Qed.

Lemma codets_render_outcome cs h :
  if Figma.fontLoads h Figma.Inter_Medium
     && (negb (needsLabelFont cs) || Figma.fontLoads h Figma.SpaceMono_Regular)
  then ∃ h', CodeTs.render cs h = Normal h'
  else CodeTs.render cs h = Throw Rejected.
Proof.
  unfold CodeTs.render.
  destruct (Figma.fontLoads h Figma.Inter_Medium) eqn:Hf;
    [|unfold Figma.loadFontAsync; by rewrite Hf].
  unfold Figma.loadFontAsync at 1. rewrite Hf. simpl.
  destruct (codets_place_returns cs 0 ∅ h Hf) as (m & h1 & Hp & Hf1).
  rewrite Hp. simpl.
  destruct (codets_place_spec _ _ _ _ _ _ Hp) as (new & _ & Hl & _ & _ & _ & _ & Hm).
  assert (∀ n, is_Some (m !! n) ↔ n ∈ CodeTs.name <$> cs) as Hres.
  { intros n. rewrite Hm, <- (nodeOfLast_is_Some _ new n)
      by (by rewrite Hl, length_fmap).
    by destruct (nodeOfLast _ new n). }
  set (bad t := bool_decide (is_Some (m !! CodeTs.Transition.to t))
                && CodeTs.truthy (CodeTs.Transition.condition t)
                && negb (Figma.fontLoads h Figma.SpaceMono_Regular)).
  set (badScreen scr := existsb bad (default [] (CodeTs.transitions scr))).
  assert (existsb badScreen cs
          = needsLabelFont cs && negb (Figma.fontLoads h Figma.SpaceMono_Regular))
    as Hbad.
  { unfold needsLabelFont. rewrite <- existsb_andb_r. apply existsb_ext_in.
    intros scr _. unfold badScreen. rewrite <- existsb_andb_r.
    apply existsb_ext_in. intros t _. unfold bad, labelled. do 2 f_equal.
    apply bool_decide_ext, Hres. }
  pose proof (forOf_rejected_in (CodeTs.connectScreen m) badScreen
                (λ h', Figma.fontLoads h' = Figma.fontLoads h) cs) as Hall.
  simpl in Hall. specialize (λ H, Hall H h1 Hf1).
  assert (if existsb badScreen cs
          then forOf (CodeTs.connectScreen m) cs h1 = Throw Rejected
          else ∃ h', forOf (CodeTs.connectScreen m) cs h1 = Normal h'
                     ∧ Figma.fontLoads h' = Figma.fontLoads h) as Hall'.
  { apply Hall. clear Hall Hbad. intros h0 scr Hin Hinv.
    unfold badScreen, CodeTs.connectScreen.
    assert (is_Some (m !! CodeTs.name scr)) as [src ->].
    { apply Hres, list_elem_of_fmap. eauto. }
    destruct (CodeTs.transitions scr) as [ts|]; simpl; [|by eauto].
    pose proof (codets_connectTransitions m src ts h0) as Hts. simpl in Hts.
    rewrite Hinv in Hts. fold bad in Hts.
    destruct (existsb bad ts); [done|].
    destruct Hts as (h' & -> & Hf'). exists h'. split; [done|]. congruence. }
  clear Hall. rename Hall' into Hall.
  rewrite Hbad in Hall.
  destruct (needsLabelFont cs), (Figma.fontLoads h Figma.SpaceMono_Regular);
    simpl in *.
  all: first
         [destruct Hall as (h' & Hh' & _); by eauto
         |unfold Figma.loadFontAsync; rewrite Hf; simpl; rewrite Hp; exact Hall].
Qed.

(** X12.  The first renderer is rejected when Inter Medium does not load,
    and when Space Mono Regular does not load and a transition needs a
    label: it has a condition that is not empty and its target is the name
    of a screen.  In every other case it returns. *)
Theorem codets_render_needs_fonts cs h :
  if Figma.fontLoads h Figma.Inter_Medium
     && (negb (needsLabelFont cs) || Figma.fontLoads h Figma.SpaceMono_Regular)
  then ∃ h', CodeTs.render cs h = Normal h'
  else CodeTs.render cs h = Throw Rejected.
Proof. apply codets_render_outcome. Qed.

(** *** How many connectors, and where the nodes are *)

Lemma length_resolved {T} (to : T → jsstring) (g : T → Figma.SceneNode → nat * nat)
    (resolve : jsstring → option Figma.SceneNode) (names : list jsstring) ts :
  (∀ n, is_Some (resolve n) ↔ n ∈ names) →
  length (omap (λ t, g t <$> resolve (to t)) ts)
  = length (filter (λ t, to t ∈ names) ts).
Proof.
  intros Hres. induction ts as [|t ts IH]; [done|]. csimpl.
  destruct (resolve (to t)) as [nd|] eqn:Hr; csimpl.
  - rewrite filter_cons_True by (apply Hres; by rewrite Hr). simpl. by rewrite IH.
  - rewrite filter_cons_False; [done|].
    intros Hin. apply Hres in Hin. rewrite Hr in Hin. by destruct Hin.
Qed.

Lemma codets_connectorsOf_length resolve (names : list jsstring) l :
  (∀ n, is_Some (resolve n) ↔ n ∈ names) →
  Forall (λ scr, CodeTs.name scr ∈ names) l →
  length (CodeTs.connectorsOf resolve l)
  = length (filter (λ t, CodeTs.Transition.to t ∈ names)
              (concat ((λ scr, default [] (CodeTs.transitions scr)) <$> l))).
Proof.
  intros Hres. unfold CodeTs.connectorsOf.
  induction 1 as [|scr l Hscr _ IH]; [done|]. csimpl.
  rewrite length_app, filter_app, length_app, IH. f_equal.
  apply Hres in Hscr as [src ->].
  destruct (CodeTs.transitions scr) as [ts|]; [|done]. simpl.
  by apply (length_resolved CodeTs.Transition.to
              (λ _ tgt, (Figma.id src, Figma.id tgt))).
Qed.

Lemma part000_connectorsOf_length resolve (names : list jsstring) l :
  (∀ n, is_Some (resolve n) ↔ n ∈ names) →
  Forall (λ scr, Part000.name scr ∈ names) l →
  length (Part000.connectorsOf resolve l)
  = length (filter (λ t, Part000.Transition.to t ∈ names)
              (concat (Part000.transitions <$> l))).
Proof.
  intros Hres. unfold Part000.connectorsOf.
  induction 1 as [|scr l Hscr _ IH]; [done|]. csimpl.
  rewrite length_app, filter_app, length_app, IH. f_equal.
  apply Hres in Hscr as [src ->].
  by apply (length_resolved Part000.Transition.to
              (λ _ tgt, (Figma.id src, Figma.id tgt))).
Qed.

Lemma all_named {S} (name : S → jsstring) (l : list S) :
  Forall (λ scr, name scr ∈ name <$> l) l.
Proof. apply Forall_forall. intros scr Hin. apply list_elem_of_fmap. eauto. Qed.

(** X13.  A run of [render] that returns has added one connector for each
    transition whose target is the name of a screen, and none for the
    others; this holds for both renderers. *)
Theorem one_connector_for_each_resolved_transition
    (cs : list CodeTs.ScreenElement) (ps : list Part000.ScreenElement)
    (h1 h1' h2 h2' : Figma.Host) :
  CodeTs.render cs h1 = Normal h1' →
  Part000.render ps h2 = Normal h2' →
  (∃ added,
      Figma.connectors h1' = Figma.connectors h1 ++ added
      ∧ length added
        = length (filter (λ t, CodeTs.Transition.to t ∈ CodeTs.name <$> cs)
                    (concat ((λ scr, default [] (CodeTs.transitions scr)) <$> cs))))
  ∧ (∃ added,
      Figma.connectors h2' = Figma.connectors h2 ++ added
      ∧ length added
        = length (filter (λ t, Part000.Transition.to t ∈ Part000.name <$> ps)
                    (concat (Part000.transitions <$> ps)))).
Proof.
  intros Hc Hp. split.
  - destruct (codets_render_spec _ _ _ Hc) as (new & added & _ & Hl & _ & Hcs & He).
    exists added. split; [done|].
    rewrite <- (length_fmap Figma.ends), He.
    apply codets_connectorsOf_length; [|apply all_named].
    intros n. apply nodeOfLast_is_Some. by rewrite Hl, length_fmap.
  - destruct (part000_render_spec _ _ _ Hp) as (new & added & _ & Hl & _ & Hcs & He).
    exists added. split; [done|].
    rewrite <- (length_fmap Figma.ends), He.
    apply part000_connectorsOf_length; [|apply all_named].
    intros n. apply nodeOfLast_is_Some. by rewrite Hl, length_fmap.
Qed.

Lemma one_connector_for_each_resolved_transition_witness :
  let h := {| Figma.fontLoads := λ _, true; Figma.created := 0;
              Figma.nodes := []; Figma.texts := []; Figma.connectors := [] |} in
  let cs := [CodeTs.screenOf (lit "[A]", [lit "=> B"; lit "=> Nowhere"]);
             CodeTs.screenOf (lit "[B]", [lit "={back}=> A"])] in
  let ps := [Part000.screenOf (lit "[A]", [lit "A go => B"; lit "A x => Nowhere"]);
             Part000.screenOf (lit "[B]", [])] in
  ∃ hc hp,
    CodeTs.render cs h = Normal hc
    ∧ Part000.render ps h = Normal hp
    ∧ length (Figma.connectors hc) = 2%nat
    ∧ length (Figma.connectors hp) = 1%nat
    ∧ ∃ added,
      Figma.connectors hc = Figma.connectors h ++ added
      ∧ length added
        = length (filter (λ t, CodeTs.Transition.to t ∈ CodeTs.name <$> cs)
                    (concat ((λ scr, default [] (CodeTs.transitions scr)) <$> cs))).
Proof.
  intros h cs ps. eexists _, _.
  split; [vm_compute; reflexivity|]. split; [vm_compute; reflexivity|].
  split; [reflexivity|]. split; [reflexivity|].
  eapply (one_connector_for_each_resolved_transition cs ps h _ h _);
    vm_compute; reflexivity.
Defined.

Lemma codets_place_nodes cs i m h m' h' :
  CodeTs.place i cs m h = Normal (m', h') →
  Figma.nodes h'
  = Figma.nodes h
    ++ ((λ k, {| Figma.id := Figma.created h + k;
                 Figma.x := (Z.of_nat (i + k) * 300)%Z;
                 Figma.y := 0%Z |}) <$> seq 0 (length cs)).
Proof.
  revert i m h. induction cs as [|scr rest IH]; intros i m h; simpl.
  - intros [= <- <-]. by rewrite app_nil_r.
  - unfold CodeTs.createScreenNode. simpl.
    destruct (Figma.loadFontAsync _ _) as [h2|e] eqn:Hf; [|done]. simpl.
    apply loadFontAsync_inv in Hf. subst h2. intros Hrest.
    rewrite (IH _ _ _ Hrest). simpl. rewrite <- app_assoc. f_equal. simpl.
    f_equal; [f_equal; unfold CodeTs.spacing; lia|].
    rewrite <- fmap_S_seq, <- list_fmap_compose. apply list_fmap_ext.
    intros _ k _. simpl. f_equal; lia.
Qed.

Lemma part000_place_nodes ps i m h m' h' :
  Part000.place i ps m h = Normal (m', h') →
  Figma.nodes h'
  = Figma.nodes h
    ++ ((λ k, {| Figma.id := Figma.created h + 2 * k;
                 Figma.x := (100 + Z.of_nat (i + k) * 300)%Z;
                 Figma.y := 100%Z |}) <$> seq 0 (length ps)).
Proof.
  revert i m h. induction ps as [|scr rest IH]; intros i m h; simpl.
  - intros [= <- <-]. by rewrite app_nil_r.
  - unfold Part000.createScreenNode. simpl.
    destruct (Figma.loadFontAsync _ _) as [h2|e] eqn:Hf; [|done]. simpl.
    apply loadFontAsync_inv in Hf. subst h2. intros Hrest.
    rewrite (IH _ _ _ Hrest). simpl. rewrite <- app_assoc. f_equal. simpl.
    f_equal; [f_equal; unfold Part000.spacing; lia|].
    rewrite <- fmap_S_seq, <- list_fmap_compose. apply list_fmap_ext.
    intros _ k _. simpl. f_equal; lia.
Qed.

(** X14.  A run of [render] that returns has put the node of the screen at
    index [k] at 300 times [k] to the right of the first one, on one row:
    at (300 k, 0) in [src/code.ts] and at (100 + 300 k, 100) in the second
    file, where each screen takes two ids, one for the frame and one for its
    text. *)
Theorem screens_are_laid_out_in_a_row
    (cs : list CodeTs.ScreenElement) (ps : list Part000.ScreenElement)
    (h1 h1' h2 h2' : Figma.Host) :
  CodeTs.render cs h1 = Normal h1' →
  Part000.render ps h2 = Normal h2' →
  Figma.nodes h1'
  = Figma.nodes h1
    ++ ((λ k, {| Figma.id := Figma.created h1 + k;
                 Figma.x := (Z.of_nat k * 300)%Z;
                 Figma.y := 0%Z |}) <$> seq 0 (length cs))
  ∧ Figma.nodes h2'
    = Figma.nodes h2
      ++ ((λ k, {| Figma.id := Figma.created h2 + 2 * k;
                   Figma.x := (100 + Z.of_nat k * 300)%Z;
                   Figma.y := 100%Z |}) <$> seq 0 (length ps)).
Proof.
  unfold CodeTs.render, Part000.render. intros Hc Hp. split.
  - destruct (Figma.loadFontAsync _ h1) as [h0|e] eqn:Hf; [|done]. simpl in Hc.
    apply loadFontAsync_inv in Hf. subst h0.
    destruct (CodeTs.place _ _ _ _) as [[m h3]|e] eqn:Hpl; [|done]. simpl in Hc.
    destruct (codets_connect_spec _ _ _ _ Hc) as [-> _].
    by rewrite (codets_place_nodes _ _ _ _ _ _ Hpl).
  - destruct (Figma.loadFontAsync _ h2) as [h0|e] eqn:Hf; [|done]. simpl in Hp.
    apply loadFontAsync_inv in Hf. subst h0.
    destruct (Part000.place _ _ _ _) as [[m h3]|e] eqn:Hpl; [|done]. simpl in Hp.
    destruct (part000_connect_spec _ _ _ _ Hp) as [-> _].
    by rewrite (part000_place_nodes _ _ _ _ _ _ Hpl).
Qed.

Lemma screens_are_laid_out_in_a_row_witness :
  let h := {| Figma.fontLoads := λ _, true; Figma.created := 7;
              Figma.nodes := []; Figma.texts := []; Figma.connectors := [] |} in
  let cs := [CodeTs.screenOf (lit "[A]", [lit "=> B"]);
             CodeTs.screenOf (lit "[B]", [])] in
  let ps := [Part000.screenOf (lit "[A]", [lit "A go => B"]);
             Part000.screenOf (lit "[B]", [])] in
  ∃ hc hp,
    CodeTs.render cs h = Normal hc
    ∧ Part000.render ps h = Normal hp
    ∧ Figma.nodes hp
      = Figma.nodes h
        ++ ((λ k, {| Figma.id := Figma.created h + 2 * k;
                     Figma.x := (100 + Z.of_nat k * 300)%Z;
                     Figma.y := 100%Z |}) <$> seq 0 (length ps)).
Proof.
  intros h cs ps. eexists _, _.
  split; [vm_compute; reflexivity|]. split; [vm_compute; reflexivity|].
  eapply (screens_are_laid_out_in_a_row cs ps h _ h _); vm_compute; reflexivity.
Defined.

(** * No stored string holds a line feed *)

Lemma split_unfold sep c r :
  Str.split sep (c :: r)
  = if c =? sep then [] :: Str.split sep r
    else Str.consHead c (Str.split sep r).
Proof. reflexivity. Qed.

Lemma split_pieces sep s : Forall (λ piece, sep ∉ piece) (Str.split sep s).
Proof.
  induction s as [|c r IH]; [repeat constructor; apply not_elem_of_nil|].
  rewrite split_unfold. destruct (N.eqb_spec c sep) as [->|Hne].
  - constructor; [apply not_elem_of_nil|done].
  - destruct (Str.split sep r) as [|h t]; simpl.
    + repeat constructor. rewrite not_elem_of_cons. split; [done|].
      apply not_elem_of_nil.
    + apply Forall_cons in IH as [Hh Ht]. constructor; [|done].
      rewrite not_elem_of_cons. by split.
Qed.

Lemma trimStart_subseteq s : Str.trimStart s ⊆ s.
Proof.
  induction s as [|c r IH]; simpl; [done|].
  destruct (Str.isWhiteSpace c); [|done].
  intros x Hx. right. by apply IH.
Qed.

Lemma trim_subseteq s : Str.trim s ⊆ s.
Proof.
  unfold Str.trim, Str.trimEnd. intros x Hx.
  rewrite elem_of_reverse in Hx.
  pose proof (trimStart_subseteq _ _ Hx) as Hx'.
  rewrite elem_of_reverse in Hx'.
  exact (trimStart_subseteq _ _ Hx').
Qed.

Lemma slice_subseteq s a b : Str.slice s a b ⊆ s.
Proof.
  unfold Str.slice. intros x Hx.
  by apply subseteq_take, subseteq_drop in Hx.
Qed.

Lemma split2_parts a b s : Forall (λ part, part ⊆ s) (Str.split2 a b s).
Proof.
  remember (length s) as n eqn:Hn. revert s Hn.
  induction n as [n IH] using lt_wf_ind. intros s ->.
  destruct s as [|c [|d r]].
  { change (Forall (λ part : jsstring, part ⊆ []) [[]]).
    apply Forall_cons; split; [by intros ??|constructor]. }
  { change (Forall (λ part : jsstring, part ⊆ [c]) [[c]]).
    apply Forall_cons; split; [by intros ??|constructor]. }
  rewrite split2_unfold. destruct ((c =? a) && (d =? b)).
  - apply Forall_cons; split; [by intros ? ?%elem_of_nil|].
    pose proof (IH (length r) ltac:(simpl; lia) r eq_refl) as Hrec.
    eapply Forall_impl; [exact Hrec|].
    intros part Hpart y Hy. do 2 right. by apply Hpart.
  - pose proof (IH (length (d :: r)) ltac:(simpl; lia) (d :: r) eq_refl) as Hrec.
    destruct (Str.split2 a b (d :: r)) as [|h t]; simpl.
    + apply Forall_cons; split; [|constructor].
      intros y Hy. apply elem_of_cons in Hy as [->|Hy]; [by left|].
      by apply elem_of_nil in Hy.
    + apply Forall_cons in Hrec as [Hh Ht]. apply Forall_cons; split.
      * intros y Hy. apply elem_of_cons in Hy as [->|Hy]; [by left|].
        right. by apply Hh.
      * eapply Forall_impl; [exact Ht|]. intros part Hpart y Hy.
        right. by apply Hpart.
Qed.

Lemma linesOf_no_line_feed text : Forall (λ line, LF ∉ line) (linesOf text).
Proof.
  unfold linesOf. apply Forall_fmap.
  eapply Forall_impl; [apply split_pieces|].
  intros piece Hp Hin. by apply Hp, trim_subseteq.
Qed.

Lemma bodyOf_subseteq lines : bodyOf lines ⊆ lines.
Proof.
  induction lines as [|l rest IH]; simpl; [done|].
  destruct (isHeader l); [by intros ? ?%elem_of_nil|].
  intros x [->|Hx]%elem_of_cons; [by left|]. right. by apply IH.
Qed.

Lemma blocks_subseteq lines :
  Forall (λ b : jsstring * list jsstring, b.1 ∈ lines ∧ b.2 ⊆ lines) (blocks lines).
Proof.
  induction lines as [|l rest IH]; simpl; [done|].
  assert (Forall (λ b : jsstring * list jsstring,
                    b.1 ∈ l :: rest ∧ b.2 ⊆ l :: rest) (blocks rest)) as Hrest.
  { eapply Forall_impl; [exact IH|]. intros b [H1 H2]. split; [by right|].
    intros x Hx. right. by apply H2. }
  destruct (isHeader l); [|done]. constructor; [|done]. simpl.
  split; [by left|]. intros x Hx. right. by apply bodyOf_subseteq.
Qed.

Lemma blocks_no_line_feed text :
  Forall (λ b : jsstring * list jsstring,
            (LF ∉ b.1) ∧ Forall (λ l, LF ∉ l) b.2)
    (blocks (linesOf text)).
Proof.
  pose proof (linesOf_no_line_feed text) as Hl. rewrite Forall_forall in Hl.
  eapply Forall_impl; [apply blocks_subseteq|].
  intros b [H1 H2]. split; [by apply Hl|].
  apply Forall_forall. intros l Hin. by apply Hl, H2.
Qed.

Lemma part000_line_no_line_feed line :
  LF ∉ line →
  Forall (λ c, LF ∉ Part000.Component.name c) (Part000.lineComponents line)
  ∧ Forall (λ t, (LF ∉ Part000.Transition.from t)
                 ∧ (LF ∉ Part000.Transition.to t))
      (Part000.lineTransitions line)
  ∧ Forall (λ l, LF ∉ l) (Part000.lineSections line).
Proof.
  intros Hl.
  assert (∀ a, a ∈ Part000.arrowParts line → LF ∉ a) as Hparts.
  { unfold Part000.arrowParts. intros a (part & -> & Hin)%list_elem_of_fmap Ha.
    apply trim_subseteq in Ha.
    pose proof (split2_parts 61 62 line) as Hsub. rewrite Forall_forall in Hsub.
    by apply Hl, (Hsub part Hin). }
  unfold Part000.lineComponents, Part000.lineTransitions, Part000.lineSections.
  destruct (Str.eqb line []); [done|].
  destruct (Str.eqb line (lit "--")); [by repeat constructor|].
  destruct (Str.includes (lit "=>") line).
  - destruct (Part000.arrowParts line) as [|a [|tgt rest]]; [done..|].
    repeat constructor; simpl.
    + intros Hin. apply slice_subseteq in Hin. revert Hin. apply Hparts. by left.
    + intros Hin. apply slice_subseteq in Hin. revert Hin. apply Hparts. by left.
    + apply Hparts. right. by left.
  - destruct (Part000.isComponentLine line); [|done].
    repeat constructor. simpl. intros Hin. by apply slice_subseteq in Hin.
Qed.

(** X15.  No string the second parser stores holds a line feed: not the
    name of a screen, not the name of a component, not the label or the
    target of a transition, not a section mark. *)
Theorem part000_parse_stores_no_line_feed text :
  ∃ screens,
    Part000.parse text = Normal screens
    ∧ Forall
        (λ scr,
           (LF ∉ Part000.name scr)
           ∧ Forall (λ c, LF ∉ Part000.Component.name c) (Part000.components scr)
           ∧ Forall (λ t, (LF ∉ Part000.Transition.from t)
                          ∧ (LF ∉ Part000.Transition.to t))
               (Part000.transitions scr)
           ∧ Forall (λ l, LF ∉ l) (Part000.sections scr))
        screens.
Proof.
  eexists. split; [apply part000_parse_blocks|].
  apply Forall_fmap. eapply Forall_impl; [apply blocks_no_line_feed|].
  intros [h body] [Hh Hbody]. simpl in *. split.
  { intros Hin. by apply slice_subseteq in Hin. }
  repeat split; apply Forall_concat, Forall_fmap;
    (eapply Forall_impl; [exact Hbody|]); intros l Hl;
    by destruct (part000_line_no_line_feed l Hl) as (? & ? & ?).
Qed.

Lemma group1_subseteq s g1 g2 :
  Regex.group1 s = Some (g1, g2) → g1 ⊆ s ∧ g2 ⊆ s.
Proof.
  intros (post & -> & _)%group1_sound. split; intros x Hx.
  - apply elem_of_app. by left.
  - apply elem_of_app. right. apply elem_of_app. right.
    apply elem_of_app. by left.
Qed.

Lemma exec_subseteq s g1 g2 :
  Regex.exec s = Some (g1, g2) → g1 ⊆ s ∧ g2 ⊆ s.
Proof.
  induction s as [|c r IH]; [done|]. rewrite exec_unfold.
  destruct (Regex.matchHere (c :: r)) as [m|] eqn:Hm.
  - intros [= ->]. revert Hm. unfold Regex.matchHere.
    destruct (Str.startsWith (lit "={") (c :: r)) eqn:Hp; [|done].
    apply startsWith_prefix in Hp as [rest ->].
    change (drop 2 (lit "={" ++ rest)) with rest.
    destruct rest as [|x rest]; [done|].
    destruct (Regex.dot x); [|done].
    destruct (Regex.group1 rest) as [[h1 h2]|] eqn:Hg; [|done].
    intros [= <- <-]. destruct (group1_subseteq _ _ _ Hg) as [H1 H2].
    change (lit "={" ++ x :: rest) with (61 :: 123 :: x :: rest).
    split; intros y Hy.
    + do 2 right. apply elem_of_cons in Hy as [->|Hy]; [by left|].
      right. by apply H1.
    + do 3 right. by apply H2.
  - intros Hr. destruct (IH Hr) as [H1 H2].
    split; intros y Hy; right; [by apply H1|by apply H2].
Qed.

Lemma join_tail_subseteq sep ty ds : Str.join sep ds ⊆ Str.join sep (ty :: ds).
Proof.
  destruct ds as [|d ds]; [by intros ? ?%elem_of_nil|].
  change (Str.join sep (ty :: d :: ds))
    with (ty ++ sep ++ Str.join sep (d :: ds)).
  intros x Hx. apply elem_of_app. right. apply elem_of_app. by right.
Qed.

Lemma codets_line_no_line_feed line :
  LF ∉ line →
  Forall (λ c, LF ∉ CodeTs.Component.name c) (CodeTs.lineComponents line)
  ∧ Forall (λ t, (LF ∉ CodeTs.Transition.to t)
                 ∧ ∀ c, CodeTs.Transition.condition t = Some c → LF ∉ c)
      (CodeTs.lineTransitions line)
  ∧ ∀ r, Forall (λ v, LF ∉ v) (requirementValues r) →
         Forall (λ v, LF ∉ v) (requirementValues (CodeTs.lineRequirements r line)).
Proof.
  intros Hl.
  unfold CodeTs.lineComponents, CodeTs.lineTransitions, CodeTs.lineRequirements.
  destruct (Str.eqb line []); [done|].
  destruct (Str.startsWith (lit "//") line).
  { split; [done|]. split; [done|]. intros r Hr.
    pose proof (join_split 58 (Str.slice line 2 None)) as Hj.
    destruct (Str.split 58 (Str.slice line 2 None)) as [|ty ds]; [done|].
    assert (LF ∉ Str.trim (Str.join (lit ":") ds)) as Hd.
    { intros Hin. apply trim_subseteq, (join_tail_subseteq _ ty) in Hin.
      change (lit ":") with [58] in Hin. rewrite Hj in Hin.
      by apply slice_subseteq in Hin. }
    revert Hr. unfold CodeTs.setRequirement, requirementValues.
    destruct r as [[p|] [s|] [a|] [u|]]; simpl;
      repeat match goal with
             | |- context [if ?b then _ else _] => destruct b
             end; simpl; intros Hr;
      repeat match goal with
             | H : Forall _ (_ :: _) |- _ => apply Forall_cons in H as [? H]
             end;
      repeat constructor; done. }
  destruct (CodeTs.isComponentLine line).
  { split; [|done]. repeat constructor. simpl. intros Hin.
    by apply slice_subseteq in Hin. }
  split; [done|]. split; [|done].
  destruct (Str.startsWith (lit "=>") line).
  { repeat constructor; simpl; [|done].
    intros Hin. by apply trim_subseteq, slice_subseteq in Hin. }
  destruct (Str.startsWith (lit "={") line); [|done].
  destruct (Regex.exec line) as [[g1 g2]|] eqn:He; [|done].
  destruct (exec_subseteq _ _ _ He) as [H1 H2].
  repeat constructor; simpl.
  - intros Hin. by apply trim_subseteq, H2 in Hin.
  - intros c [= <-] Hin. by apply trim_subseteq, H1 in Hin.
Qed.

(** X16.  No string the parser of [src/code.ts] stores holds a line feed:
    not the name of a screen, not the name of a component, not the target or
    the condition of a transition, not a requirement. *)
Theorem codets_parse_stores_no_line_feed text :
  ∃ screens,
    CodeTs.parse text = Normal screens
    ∧ Forall
        (λ scr,
           (LF ∉ CodeTs.name scr)
           ∧ Forall (λ c, LF ∉ CodeTs.Component.name c)
               (default [] (CodeTs.components scr))
           ∧ Forall (λ t, (LF ∉ CodeTs.Transition.to t)
                          ∧ ∀ c, CodeTs.Transition.condition t = Some c → LF ∉ c)
               (default [] (CodeTs.transitions scr))
           ∧ Forall (λ v, LF ∉ v)
               (from_option requirementValues [] (CodeTs.requirements scr)))
        screens.
Proof.
  eexists. split; [apply codets_parse_blocks|].
  apply Forall_fmap. eapply Forall_impl; [apply blocks_no_line_feed|].
  intros [h body] [Hh Hbody]. simpl in *. split.
  { intros Hin. by apply slice_subseteq in Hin. }
  split; [|split].
  - apply Forall_concat, Forall_fmap. eapply Forall_impl; [exact Hbody|].
    intros l Hl. by destruct (codets_line_no_line_feed l Hl) as (? & ? & ?).
  - apply Forall_concat, Forall_fmap. eapply Forall_impl; [exact Hbody|].
    intros l Hl. by destruct (codets_line_no_line_feed l Hl) as (? & ? & ?).
  - assert (Forall (λ v, LF ∉ v) (requirementValues CodeTs.noRequirements)) as H0
      by constructor.
    revert H0. generalize CodeTs.noRequirements.
    induction Hbody as [|l body Hl _ IH]; intros r Hr; simpl; [done|].
    apply IH. by apply (codets_line_no_line_feed l Hl).
Qed.

(** * The text in a frame *)

Lemma endsWith_suffix p s : Str.endsWith p s = true ↔ ∃ pre, s = pre ++ p.
Proof.
  unfold Str.endsWith. rewrite startsWith_prefix. split.
  - intros [r Hr]. exists (reverse r).
    apply (f_equal reverse) in Hr.
    by rewrite reverse_involutive, reverse_app, reverse_involutive in Hr.
  - intros [pre ->]. exists (reverse pre). by rewrite reverse_app.
Qed.

Lemma no_empty_line_after_a_component content pfx name :
  last name ≠ Some LF →
  Str.endsWith [LF; LF] (content ++ pfx ++ lit ": " ++ name ++ [LF]) = false.
Proof.
  intros Hname.
  destruct (Str.endsWith _ _) eqn:He; [exfalso|done].
  apply endsWith_suffix in He as [pre He].
  change (pre ++ [LF; LF]) with (pre ++ [LF] ++ [LF]) in He.
  rewrite !app_assoc in He. apply app_inj_tail in He as [He _].
  apply (f_equal last) in He. rewrite last_snoc, last_app in He.
  destruct (last name) as [y|]; [congruence|].
  change (lit ": ") with [58; 32] in He. rewrite last_app in He. done.
Qed.

Lemma part000_contentOf_lines scr :
  Forall (λ c, last (Part000.Component.name c) ≠ Some LF) (Part000.components scr) →
  Part000.contentOf scr
  = lit "[" ++ Part000.name scr ++ lit "]" ++ [LF; LF]
    ++ frameLines (existsb (Str.eqb (lit "--")) (Part000.sections scr)) true
         (Part000.components scr).
Proof.
  unfold Part000.contentOf.
  set (hasBreak := existsb (Str.eqb (lit "--")) (Part000.sections scr)).
  set (title := lit "[" ++ Part000.name scr ++ lit "]" ++ [LF; LF]).
  assert (Str.endsWith [LF; LF] title = true) as Htitle.
  { apply endsWith_suffix. exists (lit "[" ++ Part000.name scr ++ lit "]").
    unfold title. by rewrite <- !app_assoc. }
  set (f := λ (content : jsstring) (c : Part000.Component.t),
              (if hasBreak
                  && match Part000.Component.type c with
                     | Part000.action => true
                     | _ => false
                     end
                  && negb (Str.endsWith [LF; LF] content)
               then content ++ [LF] else content)
              ++ Part000.getComponentPrefix (Part000.Component.type c)
              ++ lit ": " ++ Part000.Component.name c ++ [LF]).
  assert (∀ cs content,
            Forall (λ c, last (Part000.Component.name c) ≠ Some LF) cs →
            foldl f content cs
            = content ++ frameLines hasBreak (Str.endsWith [LF; LF] content) cs)
    as Hfold.
  { induction cs as [|c cs IH]; intros content Hcs.
    - simpl. by rewrite app_nil_r.
    - apply Forall_cons in Hcs as [Hc Hcs]. cbn [foldl frameLines].
      rewrite IH by done. clear IH. unfold f.
      destruct (hasBreak
                && match Part000.Component.type c with
                   | Part000.action => true
                   | _ => false
                   end
                && negb (Str.endsWith [LF; LF] content)).
      + rewrite (no_empty_line_after_a_component (content ++ [LF]) _ _ Hc).
        by rewrite <- !app_assoc.
      + rewrite (no_empty_line_after_a_component content _ _ Hc).
        by rewrite <- !app_assoc. }
  intros Hcs. fold f. rewrite (Hfold _ title Hcs), Htitle.
  unfold title. by rewrite <- !app_assoc.
Qed.

Lemma part000_screens_no_line_feed text :
  Forall
    (λ scr,
       (LF ∉ Part000.name scr)
       ∧ Forall (λ c, LF ∉ Part000.Component.name c) (Part000.components scr)
       ∧ Forall (λ t, (LF ∉ Part000.Transition.from t)
                      ∧ (LF ∉ Part000.Transition.to t))
           (Part000.transitions scr)
       ∧ Forall (λ l, LF ∉ l) (Part000.sections scr))
    (Part000.screenOf <$> blocks (linesOf text)).
Proof.
  apply Forall_fmap. eapply Forall_impl; [apply blocks_no_line_feed|].
  intros [h body] [Hh Hbody]. simpl in *. split.
  { intros Hin. by apply slice_subseteq in Hin. }
  repeat split; apply Forall_concat, Forall_fmap;
    (eapply Forall_impl; [exact Hbody|]); intros l Hl;
    by destruct (part000_line_no_line_feed l Hl) as (? & ? & ?).
Qed.

(** X17.  For every screen the second parser returns, the text the second
    renderer writes in its frame is the name in brackets, an empty line, and
    one line for each component, the letter of its kind, a colon, a space
    and its name; when the screen has a section break, an empty line stands
    before every action, but not before an action that is the first
    component. *)
Theorem part000_frame_text_of_a_parsed_screen text :
  ∃ screens,
    Part000.parse text = Normal screens
    ∧ Forall
        (λ scr,
           Part000.contentOf scr
           = lit "[" ++ Part000.name scr ++ lit "]" ++ [LF; LF]
             ++ frameLines (existsb (Str.eqb (lit "--")) (Part000.sections scr))
                  true (Part000.components scr))
        screens.
Proof.
  eexists. split; [apply part000_parse_blocks|].
  eapply Forall_impl; [apply part000_screens_no_line_feed|].
  intros scr (_ & Hcs & _). apply part000_contentOf_lines.
  eapply Forall_impl; [exact Hcs|]. intros c Hc Hlast.
  apply Hc. apply last_Some in Hlast as [l' ->].
  apply elem_of_app. right. by left.
Qed.

(** * The message handler, from the text to the canvas *)

(** X18.  In the second source file, a message of type [create-flow] with a
    text is answered, when Inter Medium loads, by the notification of
    success, after one frame was made for each header line of the text; when
    the font does not load, by the error notification, whose text ends with
    the message of the error or, when that is empty, with [Unknown error]. *)
Theorem part000_create_flow describe msg text h :
  Message.type msg = lit "create-flow" →
  Message.text msg = Some text →
  if Figma.fontLoads h Figma.Inter_Medium
  then ∃ h',
         onmessage Part000.parse Part000.render describe msg h
         = Generated h'
             {| message := lit "Screen flow generated successfully!";
                error := false |}
         ∧ length (Figma.nodes h')
           = (length (Figma.nodes h) + length (headers (linesOf text)))%nat
  else onmessage Part000.parse Part000.render describe msg h
       = Caught
           {| message :=
                lit "Error generating screen flow: "
                ++ match describe Rejected with
                   | [] => lit "Unknown error"
                   | m => m
                   end;
              error := true |}.
Proof.
  intros Hty Htext. unfold onmessage. rewrite Hty, Htext. simpl.
  rewrite part000_parse_blocks. simpl.
  replace (Str.eqb (lit "create-flow") (lit "create-flow")) with true by done.
  pose proof (part000_render_outcome (Part000.screenOf <$> blocks (linesOf text)) h)
    as Hr.
  destruct (Figma.fontLoads h Figma.Inter_Medium); [|by rewrite Hr].
  destruct Hr as [h' Hr]. rewrite Hr. exists h'. split; [done|].
  destruct (part000_render_spec _ _ _ Hr) as (new & _ & -> & Hl & _).
  by rewrite length_app, Hl, length_fmap, blocks_length.
Qed.

Lemma part000_create_flow_witness :
  let h := {| Figma.fontLoads := λ _, false; Figma.created := 0;
              Figma.nodes := []; Figma.texts := []; Figma.connectors := [] |} in
  let msg := {| Message.type := lit "create-flow";
                Message.text := Some (lit "[A]") |} in
  Message.type msg = lit "create-flow"
  ∧ Message.text msg = Some (lit "[A]")
  ∧ onmessage Part000.parse Part000.render (λ _, []) msg h
    = Caught
        {| message := lit "Error generating screen flow: Unknown error";
           error := true |}.
Proof.
  intros h msg. split; [reflexivity|]. split; [reflexivity|].
  apply (part000_create_flow (λ _, []) msg (lit "[A]") h); reflexivity.
Defined.

(** X19.  In [src/code.ts], a message of type [create-flow] with a text is
    answered by the notification of success, after one sticky note was made
    for each header line of the text, when Inter Medium loads and, if a
    transition of the text needs a label, Space Mono Regular loads too; it is
    answered by the error notification otherwise. *)
Theorem codets_create_flow describe msg text h :
  Message.type msg = lit "create-flow" →
  Message.text msg = Some text →
  if Figma.fontLoads h Figma.Inter_Medium
     && (negb (needsLabelFont (CodeTs.screenOf <$> blocks (linesOf text)))
         || Figma.fontLoads h Figma.SpaceMono_Regular)
  then ∃ h',
         onmessage CodeTs.parse CodeTs.render describe msg h
         = Generated h'
             {| message := lit "Screen flow generated successfully!";
                error := false |}
         ∧ length (Figma.nodes h')
           = (length (Figma.nodes h) + length (headers (linesOf text)))%nat
  else onmessage CodeTs.parse CodeTs.render describe msg h
       = Caught
           {| message :=
                lit "Error generating screen flow: "
                ++ match describe Rejected with
                   | [] => lit "Unknown error"
                   | m => m
                   end;
              error := true |}.
Proof.
  intros Hty Htext. unfold onmessage. rewrite Hty, Htext. simpl.
  rewrite codets_parse_blocks. simpl.
  replace (Str.eqb (lit "create-flow") (lit "create-flow")) with true by done.
  pose proof (codets_render_outcome (CodeTs.screenOf <$> blocks (linesOf text)) h)
    as Hr.
  destruct (Figma.fontLoads h Figma.Inter_Medium
            && (negb (needsLabelFont _) || _)); [|by rewrite Hr].
  destruct Hr as [h' Hr]. rewrite Hr. exists h'. split; [done|].
  destruct (codets_render_spec _ _ _ Hr) as (new & _ & -> & Hl & _).
  by rewrite length_app, Hl, length_fmap, blocks_length.
Qed.

Lemma codets_create_flow_witness :
  let h := {| Figma.fontLoads :=
                λ f, Str.eqb (Figma.family f) (lit "Inter");
              Figma.created := 0;
              Figma.nodes := []; Figma.texts := []; Figma.connectors := [] |} in
  let text := lit "[A]" ++ LF :: lit "={x}=> B" ++ LF :: lit "[C]" in
  let msg := {| Message.type := lit "create-flow"; Message.text := Some text |} in
  Message.type msg = lit "create-flow"
  ∧ Message.text msg = Some text
  ∧ ∃ h',
      onmessage CodeTs.parse CodeTs.render (λ _, lit "no font") msg h
      = Generated h'
          {| message := lit "Screen flow generated successfully!";
             error := false |}
      ∧ length (Figma.nodes h')
        = (length (Figma.nodes h) + length (headers (linesOf text)))%nat.
Proof.
  intros h text msg. split; [reflexivity|]. split; [reflexivity|].
  apply (codets_create_flow (λ _, lit "no font") msg text h); reflexivity.
Defined.

(** * The texts the renderers write *)

Lemma forOf_texts {A} (body : Figma.Host → A → completion Figma.Host)
    (f : A → list Figma.TextNode) :
  (∀ h a h', body h a = Normal h' → Figma.texts h' = Figma.texts h ++ f a) →
  ∀ xs h h', forOf body xs h = Normal h' →
    Figma.texts h' = Figma.texts h ++ concat (f <$> xs).
Proof.
  intros Hbody xs. induction xs as [|a xs IH]; intros h h'; simpl.
  - intros [= <-]. by rewrite app_nil_r.
  - destruct (body h a) as [h1|e] eqn:Hb; [|done]. simpl. intros Hrest.
    rewrite (IH _ _ Hrest), (Hbody _ _ _ Hb). by rewrite <- app_assoc.
Qed.

Lemma concat_filter_fmap {T X} (P : T → Prop) `{!∀ t, Decision (P t)}
    (g : T → X) (tss : list (list T)) :
  concat ((λ ts : list T, g <$> filter P ts) <$> tss)
  = g <$> filter P (concat tss).
Proof.
  induction tss as [|ts tss IH]; [done|]. csimpl.
  by rewrite filter_app, fmap_app, IH.
Qed.

Lemma part000_place_texts ps i m h m' h' :
  Part000.place i ps m h = Normal (m', h') →
  Figma.texts h'
  = Figma.texts h
    ++ imap (λ k scr, {| Figma.owner := Some (Figma.created h + 2 * k)%nat;
                         Figma.characters := Part000.contentOf scr;
                         Figma.fontSize := Some 12%Z |}) ps.
Proof.
  revert i m h. induction ps as [|scr rest IH]; intros i m h; simpl.
  - intros [= <- <-]. by rewrite app_nil_r.
  - unfold Part000.createScreenNode. simpl.
    destruct (Figma.loadFontAsync _ _) as [h2|e] eqn:Hf; [|done]. simpl.
    apply loadFontAsync_inv in Hf. subst h2. intros Hrest.
    rewrite (IH _ _ _ Hrest). simpl. rewrite <- app_assoc. f_equal. simpl.
    f_equal; [do 2 f_equal; lia|].
    apply imap_ext. intros k scr' _. simpl. do 2 f_equal. lia.
Qed.

Lemma codets_place_texts cs i m h m' h' :
  CodeTs.place i cs m h = Normal (m', h') →
  Figma.texts h'
  = Figma.texts h
    ++ imap (λ k scr, {| Figma.owner := Some (Figma.created h + k)%nat;
                         Figma.characters := CodeTs.contentOf scr;
                         Figma.fontSize := None |}) cs.
Proof.
  revert i m h. induction cs as [|scr rest IH]; intros i m h; simpl.
  - intros [= <- <-]. by rewrite app_nil_r.
  - unfold CodeTs.createScreenNode. simpl.
    destruct (Figma.loadFontAsync _ _) as [h2|e] eqn:Hf; [|done]. simpl.
    apply loadFontAsync_inv in Hf. subst h2. intros Hrest.
    rewrite (IH _ _ _ Hrest). simpl. rewrite <- app_assoc. f_equal. simpl.
    f_equal; [do 2 f_equal; lia|].
    apply imap_ext. intros k scr' _. simpl. do 2 f_equal. lia.
Qed.

Lemma part000_connectTransition_texts m src h t h' :
  Part000.connectTransition m src h t = Normal h' →
  Figma.texts h'
  = Figma.texts h
    ++ match m !! Part000.Transition.to t with
       | Some _ => [{| Figma.owner := None;
                       Figma.characters := Part000.Transition.from t;
                       Figma.fontSize := Some 10%Z |}]
       | None => []
       end.
Proof.
  unfold Part000.connectTransition.
  destruct (m !! Part000.Transition.to t) as [tgt|]; simpl.
  - destruct (Figma.loadFontAsync _ _) as [h2|e] eqn:Hf; [|done]. simpl.
    apply loadFontAsync_inv in Hf. subst h2. by intros [= <-].
  - intros [= <-]. by rewrite app_nil_r.
Qed.

Lemma codets_connectTransition_texts m src h t h' :
  CodeTs.connectTransition m src h t = Normal h' →
  Figma.texts h'
  = Figma.texts h
    ++ match m !! CodeTs.Transition.to t with
       | Some _ =>
           if CodeTs.truthy (CodeTs.Transition.condition t)
           then [{| Figma.owner := None;
                    Figma.characters :=
                      default [] (CodeTs.Transition.condition t);
                    Figma.fontSize := Some 12%Z |}]
           else []
       | None => []
       end.
Proof.
  unfold CodeTs.connectTransition.
  destruct (m !! CodeTs.Transition.to t) as [tgt|]; simpl.
  - destruct (CodeTs.truthy _).
    + destruct (Figma.loadFontAsync _ _) as [h2|e] eqn:Hf; [|done]. simpl.
      apply loadFontAsync_inv in Hf. subst h2. by intros [= <-].
    + intros [= <-]. simpl. by rewrite app_nil_r.
  - intros [= <-]. by rewrite app_nil_r.
Qed.

Lemma part000_connect_texts (names : list jsstring) m ps h h' :
  (∀ n, is_Some (m !! n) ↔ n ∈ names) →
  Forall (λ scr, Part000.name scr ∈ names) ps →
  forOf (Part000.connectScreen m) ps h = Normal h' →
  Figma.texts h'
  = Figma.texts h
    ++ ((λ t, {| Figma.owner := None;
                 Figma.characters := Part000.Transition.from t;
                 Figma.fontSize := Some 10%Z |})
        <$> filter (λ t, Part000.Transition.to t ∈ names)
              (concat (Part000.transitions <$> ps))).
Proof.
  intros Hres Hps Hrun.
  rewrite <- concat_filter_fmap, <- list_fmap_compose.
  revert h h' Hrun. induction Hps as [|scr ps Hscr _ IH]; intros h h'; simpl.
  - intros [= <-]. by rewrite app_nil_r.
  - destruct (Part000.connectScreen m h scr) as [h1|e] eqn:Hb; [|done]. simpl.
    intros Hrest. rewrite (IH _ _ Hrest). rewrite app_assoc. f_equal.
    clear IH Hrest. revert Hb. unfold Part000.connectScreen.
    apply Hres in Hscr as [src ->]. revert h h1.
    induction (Part000.transitions scr) as [|t ts IHt]; intros h h1; simpl.
    + intros [= <-]. by rewrite app_nil_r.
    + destruct (Part000.connectTransition m src h t) as [h2|e] eqn:Ht; [|done].
      simpl. intros Hrest.
      rewrite (IHt _ _ Hrest), (part000_connectTransition_texts _ _ _ _ _ Ht).
      rewrite <- app_assoc. f_equal.
      destruct (m !! Part000.Transition.to t) as [tgt|] eqn:Hlk.
      * rewrite filter_cons_True by (apply Hres; by rewrite Hlk). done.
      * rewrite filter_cons_False; [done|].
        intros Hin. apply Hres in Hin. rewrite Hlk in Hin. by destruct Hin.
Qed.

Lemma codets_connect_texts (names : list jsstring) m cs h h' :
  (∀ n, is_Some (m !! n) ↔ n ∈ names) →
  Forall (λ scr, CodeTs.name scr ∈ names) cs →
  forOf (CodeTs.connectScreen m) cs h = Normal h' →
  Figma.texts h'
  = Figma.texts h
    ++ ((λ t, {| Figma.owner := None;
                 Figma.characters := default [] (CodeTs.Transition.condition t);
                 Figma.fontSize := Some 12%Z |})
        <$> filter (λ t, labelled names t = true)
              (concat ((λ scr, default [] (CodeTs.transitions scr)) <$> cs))).
Proof.
  intros Hres Hcs Hrun.
  rewrite <- concat_filter_fmap, <- list_fmap_compose.
  revert h h' Hrun. induction Hcs as [|scr cs Hscr _ IH]; intros h h'; simpl.
  - intros [= <-]. by rewrite app_nil_r.
  - destruct (CodeTs.connectScreen m h scr) as [h1|e] eqn:Hb; [|done]. simpl.
    intros Hrest. rewrite (IH _ _ Hrest). rewrite app_assoc. f_equal.
    clear IH Hrest. revert Hb. unfold CodeTs.connectScreen.
    apply Hres in Hscr as [src ->].
    destruct (CodeTs.transitions scr) as [ts|]; simpl;
      [|intros [= <-]; by rewrite app_nil_r].
    revert h h1. induction ts as [|t ts IHt]; intros h h1; simpl.
    + intros [= <-]. by rewrite app_nil_r.
    + destruct (CodeTs.connectTransition m src h t) as [h2|e] eqn:Ht; [|done].
      simpl. intros Hrest.
      rewrite (IHt _ _ Hrest), (codets_connectTransition_texts _ _ _ _ _ Ht).
      rewrite <- app_assoc. f_equal.
      destruct (m !! CodeTs.Transition.to t) as [tgt|] eqn:Hlk.
      * destruct (CodeTs.truthy (CodeTs.Transition.condition t)) eqn:Htr.
        -- rewrite filter_cons_True; [done|].
           unfold labelled. rewrite Htr, bool_decide_eq_true_2; [done|].
           apply Hres. by rewrite Hlk.
        -- rewrite filter_cons_False; [done|].
           unfold labelled. rewrite Htr. by rewrite andb_false_r.
      * rewrite filter_cons_False; [done|].
        unfold labelled. rewrite bool_decide_eq_false_2; [done|].
        intros Hin. apply Hres in Hin. rewrite Hlk in Hin. by destruct Hin.
Qed.

(** X20.  The texts a run of [render] that returns has written: first one
    for each screen, on its node; then the labels, in the order of the
    screens and of their transitions.  The second renderer labels every
    transition whose target is the name of a screen with the source label of
    the transition, in size 10; the renderer of [src/code.ts] labels those of
    them that have a condition that is not empty, with the condition, in
    size 12. *)
Theorem texts_written_by_render
    (cs : list CodeTs.ScreenElement) (ps : list Part000.ScreenElement)
    (h1 h1' h2 h2' : Figma.Host) :
  CodeTs.render cs h1 = Normal h1' →
  Part000.render ps h2 = Normal h2' →
  Figma.texts h1'
  = Figma.texts h1
    ++ imap (λ k scr, {| Figma.owner := Some (Figma.created h1 + k)%nat;
                         Figma.characters := CodeTs.contentOf scr;
                         Figma.fontSize := None |}) cs
    ++ ((λ t, {| Figma.owner := None;
                 Figma.characters := default [] (CodeTs.Transition.condition t);
                 Figma.fontSize := Some 12%Z |})
        <$> filter (λ t, labelled (CodeTs.name <$> cs) t = true)
              (concat ((λ scr, default [] (CodeTs.transitions scr)) <$> cs)))
  ∧ Figma.texts h2'
    = Figma.texts h2
      ++ imap (λ k scr, {| Figma.owner := Some (Figma.created h2 + 2 * k)%nat;
                           Figma.characters := Part000.contentOf scr;
                           Figma.fontSize := Some 12%Z |}) ps
      ++ ((λ t, {| Figma.owner := None;
                   Figma.characters := Part000.Transition.from t;
                   Figma.fontSize := Some 10%Z |})
          <$> filter (λ t, Part000.Transition.to t ∈ Part000.name <$> ps)
                (concat (Part000.transitions <$> ps))).
Proof.
  unfold CodeTs.render, Part000.render. intros Hc Hp. split.
  - destruct (Figma.loadFontAsync _ h1) as [h0|e] eqn:Hf; [|done]. simpl in Hc.
    apply loadFontAsync_inv in Hf. subst h0.
    destruct (CodeTs.place _ _ _ _) as [[m h3]|e] eqn:Hpl; [|done]. simpl in Hc.
    destruct (codets_place_spec _ _ _ _ _ _ Hpl)
      as (new & _ & Hl & _ & _ & _ & _ & Hm).
    rewrite (codets_connect_texts (CodeTs.name <$> cs) m cs h3 h1');
      [|intros n|apply all_named|done].
    + by rewrite (codets_place_texts _ _ _ _ _ _ Hpl), <- app_assoc.
    + rewrite Hm, <- (nodeOfLast_is_Some _ new n)
        by (by rewrite Hl, length_fmap).
      by destruct (nodeOfLast _ new n).
  - destruct (Figma.loadFontAsync _ h2) as [h0|e] eqn:Hf; [|done]. simpl in Hp.
    apply loadFontAsync_inv in Hf. subst h0.
    destruct (Part000.place _ _ _ _) as [[m h3]|e] eqn:Hpl; [|done]. simpl in Hp.
    destruct (part000_place_spec _ _ _ _ _ _ Hpl)
      as (new & _ & Hl & _ & _ & _ & _ & Hm).
    rewrite (part000_connect_texts (Part000.name <$> ps) m ps h3 h2');
      [|intros n|apply all_named|done].
    + by rewrite (part000_place_texts _ _ _ _ _ _ Hpl), <- app_assoc.
    + rewrite Hm, <- (nodeOfLast_is_Some _ new n)
        by (by rewrite Hl, length_fmap).
      by destruct (nodeOfLast _ new n).
Qed.

Lemma texts_written_by_render_witness :
  let h := {| Figma.fontLoads := λ _, true; Figma.created := 0;
              Figma.nodes := []; Figma.texts := []; Figma.connectors := [] |} in
  let cs := [CodeTs.screenOf (lit "[A]", [lit "=> B"; lit "={late}=> B"]);
             CodeTs.screenOf (lit "[B]", [lit "={x}=> Nowhere"])] in
  let ps := [Part000.screenOf (lit "[A]", [lit "A go => B"; lit "A x => Nowhere"]);
             Part000.screenOf (lit "[B]", [])] in
  ∃ hc hp,
    CodeTs.render cs h = Normal hc
    ∧ Part000.render ps h = Normal hp
    ∧ Figma.characters <$> Figma.texts hc
      = [CodeTs.contentOf (CodeTs.screenOf (lit "[A]", [lit "=> B"; lit "={late}=> B"]));
         CodeTs.contentOf (CodeTs.screenOf (lit "[B]", [lit "={x}=> Nowhere"]));
         lit "late"]
    ∧ Figma.characters <$> Figma.texts hp
      = [lit "[A]" ++ [LF; LF] ++ lit "A: go" ++ [LF] ++ lit "A: x" ++ [LF];
         lit "[B]" ++ [LF; LF];
         lit "go"]
    ∧ Figma.texts hp
      = Figma.texts h
        ++ imap (λ k scr, {| Figma.owner := Some (Figma.created h + 2 * k)%nat;
                             Figma.characters := Part000.contentOf scr;
                             Figma.fontSize := Some 12%Z |}) ps
        ++ ((λ t, {| Figma.owner := None;
                     Figma.characters := Part000.Transition.from t;
                     Figma.fontSize := Some 10%Z |})
            <$> filter (λ t, Part000.Transition.to t ∈ Part000.name <$> ps)
                  (concat (Part000.transitions <$> ps))).
Proof.
  intros h cs ps. eexists _, _.
  split; [vm_compute; reflexivity|]. split; [vm_compute; reflexivity|].
  split; [vm_compute; reflexivity|]. split; [vm_compute; reflexivity|].
  eapply (texts_written_by_render cs ps h _ h _); vm_compute; reflexivity.
Defined.

(** X21.  Neither parser throws, whatever the text; and every screen the
    parser of [src/code.ts] returns has its requirements, its components and
    its transitions, so that no [!] of the loop and no guard of the renderer
    meets a missing field. *)
Theorem parse_never_throws text :
  (∃ screens, CodeTs.parse text = Normal screens
              ∧ Forall CodeTs.complete screens)
  ∧ (∃ screens, Part000.parse text = Normal screens).
Proof.
  split; eexists; [split; [apply codets_parse_blocks|]|apply part000_parse_blocks].
  apply Forall_fmap, Forall_forall. intros b _. repeat split; by eexists.
Qed.
